(** * ObjToSchematic: the block mesh (src/block_mesh.ts)

    A shallow embedding of [BlockMesh]: block assignment with the
    gravity-aware substitution policy, the sunlight flood fill and the
    chunked buffer cache, followed by the properties the specification
    states about them.

    Numbers are modelled as [Z]: voxel coordinates and light levels are
    integers throughout the source. *)

From stdpp Require Import gmap strings list fin_maps pretty.
From Stdlib Require Import ZArith Lia.

Local Open Scope Z_scope.

(** ** Vectors and bounds (vector.ts, bounds.ts) *)

Module Vector3.
Record t : Set := mk { x : Z; y : Z; z : Z }.

(** [Vector3.add(a, b)] and [a.add(b)]: the componentwise sum. *)
Definition add (a b : t) : t := mk (x a + x b) (y a + y b) (z a + z b).

Definition eqb (a b : t) : bool :=
  (x a =? x b) && (y a =? y b) && (z a =? z b).

(** Modelled from the spec: [stringify] is defined in vector.ts, which is
    not among the sources.  The lighting map is "a mapping from integer
    coordinate to light level", so the key of a coordinate is the
    coordinate triple itself. *)
Definition stringify (v : t) : Z * Z * Z := (x v, y v, z v).

End Vector3.

Module Bounds.
Record t : Set := mk { min : Vector3.t; max : Vector3.t }.
End Bounds.

(** ** The voxel source (voxel_mesh.ts)

    The block mesh reads its voxel mesh through three queries only; the
    colour type is left open. *)

Record Voxel (RGBA : Type) := mkVoxel {
  position : Vector3.t;
  colour : RGBA;
}.
Arguments mkVoxel {RGBA} _ _.
Arguments position {RGBA} _.
Arguments colour {RGBA} _.

Record VoxelMesh (RGBA : Type) := mkVoxelMesh {
  getVoxels : list (Voxel RGBA);
  isVoxelAt : Vector3.t → bool;
  getBounds : Bounds.t;
}.
Arguments mkVoxelMesh {RGBA} _ _ _.
Arguments getVoxels {RGBA} _.
Arguments isVoxelAt {RGBA} _ _.
Arguments getBounds {RGBA} _.

(** Modelled from the spec: a voxel source that contains exactly one voxel.
    voxel_mesh.ts is not among the sources; its occupancy query answers
    for the one position and its bounds are that position. *)
Definition singleVoxelMesh {RGBA : Type} (v : Voxel RGBA) : VoxelMesh RGBA :=
  {| getVoxels := [v];
     isVoxelAt := fun p => Vector3.eqb p (position v);
     getBounds := Bounds.mk (position v) (position v) |}.

(** ** Lighting (BlockMesh._calculateLighting) *)

Module Lighting.

Record Action : Set := mkAction { pos : Vector3.t; value : Z }.

(** The state of the propagation loop.  The array [actions] is kept as the
    list of its elements from last to first: [push] is cons and [pop]
    takes the head. *)
Record State := mkState {
  lighting : gmap (Z * Z * Z) Z;
  actions : list Action;
}.

(** [for (let i = lo; i <= hi; ++i)] visits these values in this order. *)
Definition range (lo hi : Z) : list Z := seqZ lo (hi - lo + 1).

Section WithMesh.
Context {RGBA : Type}.
Variable voxelMesh : VoxelMesh RGBA.

Let blocksBounds := getBounds voxelMesh.

Definition xs : list Z :=
  range (Vector3.x (Bounds.min blocksBounds) - 1) (Vector3.x (Bounds.max blocksBounds) + 1).
Definition ys : list Z :=
  range (Vector3.y (Bounds.min blocksBounds) - 1) (Vector3.y (Bounds.max blocksBounds) + 1).
Definition zs : list Z :=
  range (Vector3.z (Bounds.min blocksBounds) - 1) (Vector3.z (Bounds.max blocksBounds) + 1).

(** The coordinates visited by the triple loop that fills the map, in
    the order of the visit. *)
Definition volume : list Vector3.t :=
  x ← xs; y ← ys; z ← zs; [Vector3.mk x y z].

(** [this._lighting.clear()] followed by the triple loop of
    [this._lighting.set(tmp.stringify(), 0)]. *)
Definition initialLighting : gmap (Z * Z * Z) Z :=
  foldl (fun m p => <[Vector3.stringify p := 0]> m) ∅ volume.

(** The entries pushed by the sunlight loop, in the order of the pushes. *)
Definition emitters : list Action :=
  x ← xs; z ← zs;
  [mkAction (Vector3.mk x (Vector3.y (Bounds.max blocksBounds) + 1) z) 15].

Definition initialState : State :=
  mkState initialLighting (reverse emitters).

(** The six pushes of the update branch; the last push is the head. *)
Definition successors (p : Vector3.t) (newLightValue : Z) : list Action :=
  [ mkAction (Vector3.add (Vector3.mk 0 (-1) 0) p)
             (if newLightValue =? 15 then 15 else newLightValue - 1);
    mkAction (Vector3.add (Vector3.mk 0 0 (-1)) p) (newLightValue - 1);
    mkAction (Vector3.add (Vector3.mk (-1) 0 0) p) (newLightValue - 1);
    mkAction (Vector3.add (Vector3.mk 0 0 1) p) (newLightValue - 1);
    mkAction (Vector3.add (Vector3.mk 1 0 0) p) (newLightValue - 1);
    mkAction (Vector3.add (Vector3.mk 0 1 0) p) (newLightValue - 1) ].

(** One iteration of [while (actions.length > 0)]; [None] when the loop
    condition fails. *)
Definition step (st : State) : option State :=
  match actions st with
  | [] => None
  | action :: rest =>
      let newLightValue := value action in
      match lighting st !! Vector3.stringify (pos action) with
      | None => Some (mkState (lighting st) rest)
      | Some currentLightValue =>
          if (newLightValue >? currentLightValue)
             && negb (isVoxelAt voxelMesh (pos action))
          then Some (mkState
                       (<[Vector3.stringify (pos action) := newLightValue]> (lighting st))
                       (successors (pos action) newLightValue ++ rest))
          else Some (mkState (lighting st) rest)
      end
  end.

(** The loop, bounded by a number of iterations: [None] when the bound
    is reached before the worklist is empty. *)
Fixpoint loop (fuel : nat) (st : State) : option State :=
  match step st with
  | None => Some st
  | Some st' =>
      match fuel with
      | O => None
      | S fuel' => loop fuel' st'
      end
  end.

(** How far the stored values are from full light. *)
Definition darkness (m : gmap (Z * Z * Z) Z) : nat :=
  map_fold (fun _ v acc => (Z.to_nat (15 - v) + acc)%nat) 0%nat m.

(** A bound on the number of iterations left in a state. *)
Definition budget (st : State) : nat :=
  (6 * darkness (lighting st) + length (actions st))%nat.

(** [_calculateLighting]: the lighting map when the loop ends.  The loop is
    run for the budget of its initial state, which is enough for it to end
    ([LightingFacts.calculateLighting_total]). *)
Definition calculateLighting : option (gmap (Z * Z * Z) Z) :=
  lighting <$> loop (budget initialState) initialState.

End WithMesh.
End Lighting.

(** ** External collaborators

    The types the block mesh only passes around, and the modules it calls
    but does not define. *)

Inductive FallableBehaviour : Set :=
| replace_falling
| replace_fallable
| place_string
| do_nothing.

#[global] Instance FallableBehaviour_eq_dec : EqDecision FallableBehaviour.
Proof. solve_decision. Defined.

Class ExternalTypes := {
  RGBA : Type;
  BlockInfo : Type;
(** [block.name] *)
  BlockInfo_name : BlockInfo → string;
  ColourSpace : Type;
  ColourSpace_RGB : ColourSpace;
  Atlas : Type;
  Palette : Type;
(** [TBlockMeshBufferDescription & { moreBlocksToBuffer, progress }] *)
  ChunkBuffer : Type;
(** Whatever hidden state the collaborators keep between calls (a random
    number generator, for instance). *)
  Oracle : Type;
}.

(** The outcome of a method: a value, an [AppError] thrown by [ASSERT], or
    an iteration bound reached. *)
Inductive Outcome (A : Type) :=
| Ok (a : A)
| Throw (message : string)
| OutOfFuel.
Arguments Ok {A} _.
Arguments Throw {A} _.
Arguments OutOfFuel {A}.

Section Model.
Context `{ExternalTypes}.

Record Block := mkBlock {
  voxel : Voxel RGBA;
  blockInfo : BlockInfo;
}.

Record BlockMesh := mkBlockMesh {
  _blocksUsed : list string;
  _blocks : list Block;
  _voxelMesh : VoxelMesh RGBA;
  _fallableBlocks : list string;
  _atlas : Atlas;
  _lighting : gmap (Z * Z * Z) Z;
(** A sparse array: [None] at an index reads as [undefined]. *)
    _bufferChunks : gmap Z ChunkBuffer;
  }.

(** [AssignParams.Input], the fields [_assignBlocks] reads. *)
Record AssignParams_Input := mkAssignParams {
  textureAtlas : string;
  blockPalette : string;
  blockAssigner : string;
  resolution : Z;
  colourSpace : ColourSpace;
  fallable : FallableBehaviour;
}.

(** Modelled from the spec: block_assigner.ts is not among the sources.
    An [AtlasPalette] pairs the resolved atlas and palette. *)
Record AtlasPalette := mkAtlasPalette {
  ap_atlas : Atlas;
  ap_palette : Palette;
}.

(** Calls that leave the block mesh, in the order they are made. *)
Inductive Event :=
| EvAssignBlock (atlasPalette : AtlasPalette) (voxelColour : RGBA)
    (voxelPosition : Vector3.t) (resolution : Z) (colourSpace : ColourSpace)
    (blockCollection : list BlockInfo)
| EvStatusAdd (severity message : string)
| EvFromBlockMesh (chunkIndex : Z).

Record World := mkWorld {
  oracle : Oracle;
  trace : list Event;
}.

(** [IBlockAssigner.assignBlock] *)
Definition IBlockAssigner : Type :=
  Oracle → AtlasPalette → RGBA → Vector3.t → Z → ColourSpace → list BlockInfo →
  BlockInfo * Oracle.

Class Collaborators := {
(** [Atlas.load], [Palette.load]: [None] is [undefined]. *)
    Atlas_load : string → option Atlas;
    Palette_load : string → option Palette;
    Atlas_getVanillaAtlas : Atlas;
(** The blocks of the atlas that the palette makes available. *)
    paletteBlocks : Atlas → Palette → list BlockInfo;
(** [BlockAssignerFactory.GetAssigner] *)
    GetAssigner : string → IBlockAssigner;
(** [ChunkedBufferGenerator.fromBlockMesh] *)
    fromBlockMesh : Oracle → BlockMesh → Z → ChunkBuffer * Oracle;
(** [Number.prototype.toLocaleString] *)
    toLocaleString : Z → string;
  }.

Context `{Collaborators}.

(** [array.includes(s)] on an array of strings. *)
Definition includes (l : list string) (s : string) : bool :=
  bool_decide (s ∈ l).

(** Modelled from the spec: [AtlasPalette.createBlockCollection] is defined
    in block_assigner.ts, which is not among the sources.  It builds a
    classification collection from the atlas and palette, "excluding every
    name" in the list it is given. *)
Definition createBlockCollection (ap : AtlasPalette) (blocksToExclude : list string)
  : list BlockInfo :=
  filter (fun b => includes blocksToExclude (BlockInfo_name b) = false)
         (paletteBlocks (ap_atlas ap) (ap_palette ap)).

(** [new BlockMesh(voxelMesh)]; [fallable_blocks] is the list read from
    fallable_blocks.json.  The constructor reads and parses that file
    itself and throws when it cannot; the block mesh is modelled from the
    point where the list has been read. *)
Definition new_BlockMesh (voxelMesh : VoxelMesh RGBA) (fallable_blocks : list string)
  : BlockMesh :=
  {| _blocksUsed := [];
     _blocks := [];
     _voxelMesh := voxelMesh;
     _atlas := Atlas_getVanillaAtlas;
     _lighting := ∅;
     _fallableBlocks := fallable_blocks;
     _bufferChunks := ∅ |}.

(** *** Calls to the collaborators *)

Definition call_assignBlock (assigner : IBlockAssigner) (ap : AtlasPalette)
    (voxelColour : RGBA) (voxelPosition : Vector3.t) (res : Z) (cs : ColourSpace)
    (blockCollection : list BlockInfo) (w : World) : BlockInfo * World :=
  let '(block, o) :=
    assigner (oracle w) ap voxelColour voxelPosition res cs blockCollection in
  (block,
   mkWorld o (trace w ++ [EvAssignBlock ap voxelColour voxelPosition res cs blockCollection])).

Definition StatusHandler_add (severity message : string) (w : World) : World :=
  mkWorld (oracle w) (trace w ++ [EvStatusAdd severity message]).

Definition call_fromBlockMesh (this : BlockMesh) (chunkIndex : Z) (w : World)
  : ChunkBuffer * World :=
  let '(chunk, o) := fromBlockMesh (oracle w) this chunkIndex in
  (chunk, mkWorld o (trace w ++ [EvFromBlockMesh chunkIndex])).

(** *** BlockMesh._assignBlocks *)

(** Lines 99-100: the decision to replace the candidate block. *)
Definition shouldReplace (mode : FallableBehaviour) (isFallable isSupported : bool)
  : bool :=
  let shouldReplace := bool_decide (mode = replace_fallable) && isFallable in
  shouldReplace
  || (bool_decide (mode = replace_falling) && isFallable && negb isSupported).

Definition push_block (this : BlockMesh) (b : Block) : BlockMesh :=
  {| _blocksUsed := _blocksUsed this;
     _blocks := _blocks this ++ [b];
     _voxelMesh := _voxelMesh this;
     _fallableBlocks := _fallableBlocks this;
     _atlas := _atlas this;
     _lighting := _lighting this;
     _bufferChunks := _bufferChunks this |}.

Definition push_blockUsed (this : BlockMesh) (blockName : string) : BlockMesh :=
  {| _blocksUsed := _blocksUsed this ++ [blockName];
     _blocks := _blocks this;
     _voxelMesh := _voxelMesh this;
     _fallableBlocks := _fallableBlocks this;
     _atlas := _atlas this;
     _lighting := _lighting this;
     _bufferChunks := _bufferChunks this |}.

Definition set_atlas (this : BlockMesh) (atlas : Atlas) : BlockMesh :=
  {| _blocksUsed := _blocksUsed this;
     _blocks := _blocks this;
     _voxelMesh := _voxelMesh this;
     _fallableBlocks := _fallableBlocks this;
     _atlas := atlas;
     _lighting := _lighting this;
     _bufferChunks := _bufferChunks this |}.

Definition set_lighting (this : BlockMesh) (l : gmap (Z * Z * Z) Z) : BlockMesh :=
  {| _blocksUsed := _blocksUsed this;
     _blocks := _blocks this;
     _voxelMesh := _voxelMesh this;
     _fallableBlocks := _fallableBlocks this;
     _atlas := _atlas this;
     _lighting := l;
     _bufferChunks := _bufferChunks this |}.

Definition set_bufferChunk (this : BlockMesh) (chunkIndex : Z) (c : ChunkBuffer)
  : BlockMesh :=
  {| _blocksUsed := _blocksUsed this;
     _blocks := _blocks this;
     _voxelMesh := _voxelMesh this;
     _fallableBlocks := _fallableBlocks this;
     _atlas := _atlas this;
     _lighting := _lighting this;
     _bufferChunks := <[chunkIndex := c]> (_bufferChunks this) |}.

Section AssignLoop.
Variable params : AssignParams_Input.
Variable atlasPalette : AtlasPalette.
Variables allBlockCollection nonFallableBlockCollection : list BlockInfo.
Variable assigner : IBlockAssigner.

(** The body of the loop over the voxels (lines 79-120), on the block
    mesh, the counter of falling blocks and the world. *)
Definition assignVoxel (acc : BlockMesh * Z * World) (v : Voxel RGBA)
  : BlockMesh * Z * World :=
  let '(this, countFalling, w) := acc in
  let '(block, w) :=
    call_assignBlock assigner atlasPalette (colour v) (position v)
      (resolution params) (colourSpace params) allBlockCollection w in
  let isFallable := includes (_fallableBlocks this) (BlockInfo_name block) in
  let isSupported :=
    isVoxelAt (_voxelMesh this) (Vector3.add (position v) (Vector3.mk 0 (-1) 0)) in
  let countFalling :=
    if isFallable && negb isSupported then countFalling + 1 else countFalling in
  let '(block, w) :=
    if shouldReplace (fallable params) isFallable isSupported
    then call_assignBlock assigner atlasPalette (colour v) (position v)
           (resolution params) ColourSpace_RGB nonFallableBlockCollection w
    else (block, w) in
  let this := push_block this (mkBlock v block) in
  let this :=
    if negb (includes (_blocksUsed this) (BlockInfo_name block))
    then push_blockUsed this (BlockInfo_name block)
    else this in
  (this, countFalling, w).
End AssignLoop.

(** The message of the warning of line 125. *)
Definition fallingWarning (countFalling : Z) : string :=
  toLocaleString countFalling
  +:+ " blocks will fall under gravity when this structure is placed".

(** [_assignBlocks].  The reports to [ProgressManager] only feed the
    progress bar and are left out. *)
Definition _assignBlocks (this : BlockMesh) (blockMeshParams : AssignParams_Input)
    (w : World) : Outcome (BlockMesh * World) :=
  match Atlas_load (textureAtlas blockMeshParams) with
  | None => Throw "Could not load atlas"
  | Some atlas =>
      let this := set_atlas this atlas in
      match Palette_load (blockPalette blockMeshParams) with
      | None => Throw "Could not load palette"
      | Some palette =>
          let atlasPalette := mkAtlasPalette atlas palette in
          let allBlockCollection := createBlockCollection atlasPalette [] in
          let nonFallableBlockCollection :=
            createBlockCollection atlasPalette (_fallableBlocks this) in
          let assigner := GetAssigner (blockAssigner blockMeshParams) in
          let voxels := getVoxels (_voxelMesh this) in
          let '(this, countFalling, w) :=
            foldl (assignVoxel blockMeshParams atlasPalette allBlockCollection
                     nonFallableBlockCollection assigner)
                  (this, 0, w) voxels in
          if bool_decide (fallable blockMeshParams = do_nothing) && (countFalling >? 0)
          then Ok (this, StatusHandler_add "warning" (fallingWarning countFalling) w)
          else Ok (this, w)
      end
  end.

(** *** BlockMesh._calculateLighting *)

Definition _calculateLighting (this : BlockMesh) : Outcome BlockMesh :=
  match Lighting.calculateLighting (_voxelMesh this) with
  | Some l => Ok (set_lighting this l)
  | None => OutOfFuel
  end.

(** [this._lighting.get(p.stringify()) ?? 15] *)
Definition lightAt (this : BlockMesh) (p : Vector3.t) : Z :=
  default 15 (_lighting this !! Vector3.stringify p).

(** [getBlockLighting], face order north, south, up, down, east, west. *)
Definition getBlockLighting (this : BlockMesh) (p : Vector3.t) : list Z :=
  [ lightAt this (Vector3.add (Vector3.mk 1 0 0) p);
    lightAt this (Vector3.add (Vector3.mk (-1) 0 0) p);
    lightAt this (Vector3.add (Vector3.mk 0 1 0) p);
    lightAt this (Vector3.add (Vector3.mk 0 (-1) 0) p);
    lightAt this (Vector3.add (Vector3.mk 0 0 1) p);
    lightAt this (Vector3.add (Vector3.mk 0 0 (-1)) p) ].

(** *** BlockMesh.createFromVoxelMesh *)

Definition createFromVoxelMesh (voxelMesh : VoxelMesh RGBA) (fallable_blocks : list string)
    (blockMeshParams : AssignParams_Input) (w : World) : Outcome (BlockMesh * World) :=
  let blockMesh := new_BlockMesh voxelMesh fallable_blocks in
  match _assignBlocks blockMesh blockMeshParams w with
  | Ok (blockMesh, w) =>
      match _calculateLighting blockMesh with
      | Ok blockMesh => Ok (blockMesh, w)
      | Throw m => Throw m
      | OutOfFuel => OutOfFuel
      end
  | Throw m => Throw m
  | OutOfFuel => OutOfFuel
  end.

Definition getBlocks (this : BlockMesh) : list Block := _blocks this.
Definition getBlockPalette (this : BlockMesh) : list string := _blocksUsed this.

(** *** BlockMesh.getChunkedBuffer *)

(** [getChunkedBuffer]; the two [LOGF] lines only write to the log and are
    left out. *)
Definition getChunkedBuffer (this : BlockMesh) (chunkIndex : Z) (w : World)
  : option ChunkBuffer * BlockMesh * World :=
  match _bufferChunks this !! chunkIndex with
  | None =>
      let '(chunk, w) := call_fromBlockMesh this chunkIndex w in
      let this := set_bufferChunk this chunkIndex chunk in
      (_bufferChunks this !! chunkIndex, this, w)
  | Some _ => (_bufferChunks this !! chunkIndex, this, w)
  end.

Definition getAllChunkedBuffers (this : BlockMesh) : gmap Z ChunkBuffer :=
  _bufferChunks this.

(** A driver that requests chunks one after the other on one aggregate. *)
Fixpoint getChunkedBuffers (chunkIndices : list Z) (this : BlockMesh) (w : World)
  : list (option ChunkBuffer) * BlockMesh * World :=
  match chunkIndices with
  | [] => ([], this, w)
  | k :: ks =>
      let '(r, this, w) := getChunkedBuffer this k w in
      let '(rs, this, w) := getChunkedBuffers ks this w in
      (r :: rs, this, w)
  end.

End Model.

(** ** A small instance: sand and stone

    The setting of the scenarios of the specification: the palette holds
    sand and stone, sand is the only block that falls, colours are named
    after the block they are closest to. *)

Module Scenario.

Inductive DemoColourSpace : Set := DemoRGB | DemoLAB.

Definition types : ExternalTypes :=
  {| RGBA := string;
     BlockInfo := string;
     BlockInfo_name := fun b => b;
     ColourSpace := DemoColourSpace;
     ColourSpace_RGB := DemoRGB;
     Atlas := unit;
     Palette := list string;
     ChunkBuffer := Z;
     Oracle := nat |}.

(** The block of the collection named like the colour, otherwise the
    first block of the collection; the oracle counts the calls. *)
Definition nearest : @IBlockAssigner types :=
  fun o _ voxelColour _ _ _ blockCollection =>
    (if bool_decide (voxelColour ∈ blockCollection) then voxelColour
     else default "air" (head blockCollection),
     S o).

Definition collaborators : @Collaborators types :=
  {| Atlas_load := fun id =>
       if bool_decide (id = "vanilla") then Some (tt : @Atlas types) else None;
     Palette_load := fun id =>
       if bool_decide (id = "all")
       then Some (["sand"; "stone"] : @Palette types) else None;
     Atlas_getVanillaAtlas := tt;
     paletteBlocks := fun _ palette => palette;
     GetAssigner := fun _ => nearest;
     fromBlockMesh := fun o _ chunkIndex => (10 * chunkIndex + Z.of_nat o, S o);
     toLocaleString := pretty |}.

Definition fallable_blocks : list string := ["sand"].

Definition params (mode : FallableBehaviour) : @AssignParams_Input types :=
  @mkAssignParams types "vanilla" "all" "basic" 1 DemoLAB mode.

Definition origin : Vector3.t := Vector3.mk 0 0 0.

(** One sand-coloured voxel with nothing below it. *)
Definition sand : Voxel (@RGBA types) := mkVoxel origin "sand".
Definition sandMesh : VoxelMesh (@RGBA types) := singleVoxelMesh sand.

(** A sand-coloured voxel resting on a stone-coloured one. *)
Definition stoneBelow : Voxel (@RGBA types) := mkVoxel (Vector3.mk 0 (-1) 0) "stone".
Definition supportedSandMesh : VoxelMesh (@RGBA types) :=
  {| getVoxels := [stoneBelow; sand];
     isVoxelAt := fun p => Vector3.eqb p (position stoneBelow) || Vector3.eqb p (position sand);
     getBounds := Bounds.mk (position stoneBelow) (position sand) |}.

Definition world0 : @World types := @mkWorld types O [].

Definition atlas0 : @Atlas types := tt.
Definition palette0 : @Palette types := ["sand"; "stone"].

Definition ap : @AtlasPalette types := @mkAtlasPalette types atlas0 palette0.
Definition all : list (@BlockInfo types) := ["sand"; "stone"].
Definition nonF : list (@BlockInfo types) := ["stone"].

(** The first seed popped on the single sand voxel, and the state after
    the first iteration. *)
Definition corner : Vector3.t := Vector3.mk 1 1 1.

Definition afterFirstStep : Lighting.State :=
  Lighting.mkState
    (<[(1, 1, 1) := 15]> (Lighting.initialLighting sandMesh))
    (Lighting.successors corner 15
       ++ tail (Lighting.actions (Lighting.initialState sandMesh))).

End Scenario.

(** ** Notions the statements below are written with *)

(** The expanded volume: the bounds grown by one cell on every axis. *)
Definition tracked (b : Bounds.t) (p : Vector3.t) : Prop :=
  Vector3.x (Bounds.min b) - 1 ≤ Vector3.x p ≤ Vector3.x (Bounds.max b) + 1 ∧
  Vector3.y (Bounds.min b) - 1 ≤ Vector3.y p ≤ Vector3.y (Bounds.max b) + 1 ∧
  Vector3.z (Bounds.min b) - 1 ≤ Vector3.z p ≤ Vector3.z (Bounds.max b) + 1.

(** The states the propagation loop goes through. *)
Inductive reachable {RGBA : Type} (vm : VoxelMesh RGBA) : Lighting.State → Prop :=
| reachable_init : reachable vm (Lighting.initialState vm)
| reachable_step st st' :
  reachable vm st → Lighting.step vm st = Some st' → reachable vm st'.

(** A cell above a voxel, in its column. *)
Definition above {RGBA : Type} (v : Voxel RGBA) (p : Vector3.t) : Prop :=
  Vector3.x p = Vector3.x (position v) ∧ Vector3.z p = Vector3.z (position v)
  ∧ Vector3.y (position v) < Vector3.y p.

(** A cell at the same height, one step to the side. *)
Definition beside (p q : Vector3.t) : Prop :=
  Vector3.y q = Vector3.y p
  ∧ Z.abs (Vector3.x q - Vector3.x p) + Z.abs (Vector3.z q - Vector3.z p) = 1.

(** The names of a list in the order of their first occurrence. *)
Fixpoint firstOccurrences (l : list string) : list string :=
  match l with
  | [] => []
  | s :: l => s :: filter (fun t => t ≠ s) (firstOccurrences l)
  end.

Section AssignmentNotions.
Context `{ExternalTypes}.

(** The specification's rule of substitution. *)
Definition spec_replaced (mode : FallableBehaviour) (isFallable isSupported : Prop)
  : Prop :=
  (mode = replace_fallable ∧ isFallable)
  ∨ (mode = replace_falling ∧ isFallable ∧ ¬ isSupported).

(** A block that will fall: its name is fallable and no voxel is
    directly below its voxel. *)
Definition falling (fallable_blocks : list string) (vm : VoxelMesh RGBA) (b : Block)
  : Prop :=
  BlockInfo_name (blockInfo b) ∈ fallable_blocks
  ∧ isVoxelAt vm (Vector3.add (position (voxel b)) (Vector3.mk 0 (-1) 0)) = false.

#[global] Instance falling_dec fallable_blocks vm b :
  Decision (falling fallable_blocks vm b).
Proof. unfold falling. apply _. Defined.

(** The candidate blocks: one call of the assigner per voxel, in order,
    on one collection and one colour space. *)
Fixpoint candidates (assigner : IBlockAssigner) (ap : AtlasPalette) (res : Z)
    (cs : ColourSpace) (blockCollection : list BlockInfo)
    (voxels : list (Voxel RGBA)) (o : Oracle) : list Block * Oracle :=
  match voxels with
  | [] => ([], o)
  | v :: voxels =>
      let '(b, o) := assigner o ap (colour v) (position v) res cs blockCollection in
      let '(bs, o) := candidates assigner ap res cs blockCollection voxels o in
      (mkBlock v b :: bs, o)
  end.

(** The chunk indices the buffer generator was called with. *)
Definition generated (tr : list Event) : list Z :=
  omap (fun e => match e with EvFromBlockMesh k => Some k | _ => None end) tr.

(** [if (!used.includes(name)) used.push(name)] *)
Definition addUsed (used : list string) (blockName : string) : list string :=
  if negb (includes used blockName) then used ++ [blockName] else used.

Section PassOutcome.
Variable params : AssignParams_Input.
Variable ap : AtlasPalette.
Variables all nonF : list BlockInfo.
Variable assigner : IBlockAssigner.
Variable fb : list string.
Variable vm : VoxelMesh RGBA.

(** What one iteration does for a voxel: the block it pushes, whether
    it counts the block as falling, and the world it leaves. *)
Definition outcome (w : World) (v : Voxel RGBA) : BlockInfo * bool * World :=
  let '(cand, w1) :=
    call_assignBlock assigner ap (colour v) (position v)
      (resolution params) (colourSpace params) all w in
  let isFallable := includes fb (BlockInfo_name cand) in
  let isSupported :=
    isVoxelAt vm (Vector3.add (position v) (Vector3.mk 0 (-1) 0)) in
  let '(block, w2) :=
    if shouldReplace (fallable params) isFallable isSupported
    then call_assignBlock assigner ap (colour v) (position v)
           (resolution params) ColourSpace_RGB nonF w1
    else (cand, w1) in
  (block, isFallable && negb isSupported, w2).

Fixpoint passOutcome (w : World) (vs : list (Voxel RGBA))
  : list (Block * bool) * World :=
  match vs with
  | [] => ([], w)
  | v :: vs =>
      let '(b, f, w1) := outcome w v in
      let '(rs, w2) := passOutcome w1 vs in
      ((mkBlock v b, f) :: rs, w2)
  end.

End PassOutcome.

#[global] Instance spec_replaced_dec mode (isFallable isSupported : Prop)
    `{!Decision isFallable} `{!Decision isSupported} :
  Decision (spec_replaced mode isFallable isSupported).
Proof. unfold spec_replaced. apply _. Defined.

(** The pass over the voxels as the specification words it: for each voxel,
    in order, the assigner gives a candidate from the collection of all
    blocks in the configured colour space; the candidate is replaced
    exactly under the specification's rule of substitution, by a second
    call of the assigner on the non-fallable collection in RGB; the
    resulting block is appended. *)
Fixpoint spec_assign (mode : FallableBehaviour) (assigner : IBlockAssigner)
    (ap : AtlasPalette) (res : Z) (cs : ColourSpace)
    (allBlocks nonFallableBlocks : list BlockInfo)
    (fallable_blocks : list string) (vm : VoxelMesh RGBA)
    (voxels : list (Voxel RGBA)) (w : World) : list Block * World :=
  match voxels with
  | [] => ([], w)
  | v :: voxels =>
      let '(candidate, w) :=
        call_assignBlock assigner ap (colour v) (position v) res cs allBlocks w in
      let isFallable := BlockInfo_name candidate ∈ fallable_blocks in
      let isSupported :=
        isVoxelAt vm (Vector3.add (position v) (Vector3.mk 0 (-1) 0)) = true in
      let '(block, w) :=
        if decide (spec_replaced mode isFallable isSupported)
        then call_assignBlock assigner ap (colour v) (position v) res
               ColourSpace_RGB nonFallableBlocks w
        else (candidate, w) in
      let '(blocks, w) :=
        spec_assign mode assigner ap res cs allBlocks nonFallableBlocks
          fallable_blocks vm voxels w in
      (mkBlock v block :: blocks, w)
  end.

End AssignmentNotions.

(** The specification's sentence on the seed layer, as it is written: the
    seeds sit at [bounds.max.y + 1], one layer above the tracked volume. *)
Definition spec_seed_layer_above_volume {RGBA : Type} (vm : VoxelMesh RGBA) : Prop :=
  ∀ a, a ∈ Lighting.actions (Lighting.initialState vm) →
    Lighting.value a = 15 ∧
    Vector3.y (Lighting.pos a) = Vector3.y (Bounds.max (getBounds vm)) + 1 ∧
    ¬ tracked (getBounds vm) (Lighting.pos a) ∧
    tracked (getBounds vm) (Vector3.add (Vector3.mk 0 (-1) 0) (Lighting.pos a)).

(** The specification's sentence on an isolated voxel, as it is written:
    full light in the cells above it, at most 14 one step to the side. *)
Definition spec_isolated_voxel_lighting {RGBA : Type} (v : Voxel RGBA) : Prop :=
  ∃ L, Lighting.calculateLighting (singleVoxelMesh v) = Some L ∧
    ∀ p, tracked (getBounds (singleVoxelMesh v)) p → above v p →
      L !! Vector3.stringify p = Some 15 ∧
      ∀ q, beside p q → isVoxelAt (singleVoxelMesh v) q = false →
        ∃ l, L !! Vector3.stringify q = Some l ∧ l ≤ 14.

(** What the propagation loop keeps true of its state. *)
Record LightingInv {RGBA : Type} (vm : VoxelMesh RGBA) (st : Lighting.State) : Prop := {
  inv_bounded : ∀ k v, Lighting.lighting st !! k = Some v → 0 ≤ v ≤ 15;
  inv_actions : ∀ a, a ∈ Lighting.actions st → Lighting.value a ≤ 15;
  inv_dom : ∀ k, is_Some (Lighting.lighting st !! k)
                 ↔ is_Some (Lighting.initialLighting vm !! k);
  inv_opaque : ∀ p v,
    isVoxelAt vm p = true →
    Lighting.lighting st !! Vector3.stringify p = Some v → v = 0;
  inv_sunlit : ∀ a,
    a ∈ Lighting.emitters vm → tracked (getBounds vm) (Lighting.pos a) →
    a ∈ Lighting.actions st
    ∨ isVoxelAt vm (Lighting.pos a) = true
    ∨ Lighting.lighting st !! Vector3.stringify (Lighting.pos a) = Some 15;
}.

(** *** The remaining accessors of the block mesh *)

Section Accessors.
Context `{ExternalTypes}.

(** [getVoxelMesh]: the field [_voxelMesh] is set by the constructor and
    never cleared, so the guard [if (!this._voxelMesh)] never throws. *)
Definition getVoxelMesh (this : BlockMesh) : VoxelMesh RGBA := _voxelMesh this.

(** [getAtlas] *)
Definition getAtlas (this : BlockMesh) : Atlas := _atlas this.

End Accessors.

(** ** Utilities (Core/src/util.ts) *)

Module AppUtil.

(** [s.startsWith(sub)] *)
Fixpoint String_startsWith (s sub : string) {struct sub} : bool :=
  match sub, s with
  | EmptyString, _ => true
  | String c sub', String d s' => Ascii.eqb c d && String_startsWith s' sub'
  | String _ _, EmptyString => false
  end.

(** [s.includes(sub)]: some suffix of [s] starts with [sub]. *)
Fixpoint String_includes (s sub : string) : bool :=
  String_startsWith s sub
  || match s with
     | EmptyString => false
     | String _ s' => String_includes s' sub
     end.

(** [AppUtil.Text.isNamespacedBlock] *)
Definition isNamespacedBlock (blockName : string) : bool :=
  String_includes blockName ":".

(** [AppUtil.Text.namespaceBlock] *)
Definition namespaceBlock (blockName : string) : string :=
  if isNamespacedBlock blockName then blockName else "minecraft:" +:+ blockName.

(** [TypedArray.prototype.copyWithin(target, start, end)] on a buffer kept
    as the list of its elements: the three indices are taken relative to
    the end when negative and clamped to the buffer, and the elements from
    [start] to [end] are copied to [target] as if through a copy of the
    buffer, as many as fit. *)
Definition copyWithin {A : Type} (buffer : list A) (target start end_ : Z) : list A :=
  let len := Z.of_nat (length buffer) in
  let relative i := if i <? 0 then Z.max (len + i) 0 else Z.min i len in
  let to := relative target in
  let from := relative start in
  let final := relative end_ in
  let count := Z.min (final - from) (len - to) in
  if 0 <? count
  then take (Z.to_nat to) buffer
       ++ take (Z.to_nat count) (drop (Z.to_nat from) buffer)
       ++ drop (Z.to_nat (to + count)) buffer
  else buffer.

(** The loop of [repeatedFill], run [n] times on the buffer and [len]. *)
Fixpoint doubling {A : Type} (n : nat) (start : Z) (buffer : list A) (len : Z)
  : list A * Z :=
  match n with
  | O => (buffer, len)
  | S n => doubling n start (copyWithin buffer (start + len) start (start + len)) (len * 2)
  end.

(** [AppUtil.Array.repeatedFill].  [AppMath.largestPowerOfTwoLessThanN] is
    defined in math.ts, which is not among the sources; it is a parameter. *)
Definition repeatedFill {A : Type} (largestPowerOfTwoLessThanN : Z → Z)
    (buffer : list A) (start startLength desiredCount : Z) : list A :=
  let pow := largestPowerOfTwoLessThanN desiredCount in
  let '(buffer, len) := doubling (Z.to_nat pow) start buffer startLength in
  let finalLength := desiredCount * startLength in
  copyWithin buffer (start + len) start (start + finalLength - len).

End AppUtil.

(** The part of [buffer] that starts at [start] and is [len] long repeats
    the first [startLength] elements of this part of [original]; the rest
    of [buffer] is as in [original]. *)
Definition filled {A : Type} (original buffer : list A) (start startLength len : Z)
  : Prop :=
  length buffer = length original ∧
  (∀ i, 0 ≤ i < len →
        buffer !! Z.to_nat (start + i)
        = original !! Z.to_nat (start + i mod startLength)) ∧
  (∀ j : nat, ¬ (start ≤ Z.of_nat j < start + len) → buffer !! j = original !! j).

(** ** The MagicaVoxel importer (importers/vox_importer.ts) *)

Module VoxImporter.

(** An entry of [voxObject.xyzi.values]. *)
Record VoxVoxel : Set := mkVoxVoxel { vx : Z; vy : Z; vz : Z; vi : Z }.

(** What [readVox] returns, as far as [load] reads it. *)
Record VoxObject (RGBA_255 : Type) := mkVoxObject {
  size : Vector3.t;
  xyzi : list VoxVoxel;
  rgba : list RGBA_255;
}.
Arguments mkVoxObject {RGBA_255} _ _ _.
Arguments size {RGBA_255} _.
Arguments xyzi {RGBA_255} _.
Arguments rgba {RGBA_255} _.

(** [new Vector3(size.x, size.z, size.y).divScalar(2).floor()] *)
Definition halfSizeVector (size : Vector3.t) : Vector3.t :=
  Vector3.mk (Vector3.x size / 2) (Vector3.z size / 2) (Vector3.y size / 2).

(** [new Vector3(voxel.x, voxel.z, voxel.y).sub(halfSizeVector)] *)
Definition voxelPosition (half : Vector3.t) (voxel : VoxVoxel) : Vector3.t :=
  Vector3.mk (vx voxel - Vector3.x half) (vz voxel - Vector3.y half)
             (vy voxel - Vector3.z half).

(** [colourPalette[i]]: [None] is [undefined]. *)
Definition paletteEntry {RGBA_255 : Type} (colourPalette : list RGBA_255) (i : Z)
  : option RGBA_255 :=
  if i <? 0 then None else colourPalette !! Z.to_nat i.

(** [load], from the object [readVox] returned: the calls of
    [voxelMesh.addVoxel(position, colour)] it makes, in order.  The voxel
    mesh, [readVox] and [RGBAUtil.fromRGBA255] are not among the sources;
    the latter is a parameter, applied to whatever the palette holds at the
    index. *)
Definition load {RGBA_255 RGBA : Type} (fromRGBA255 : option RGBA_255 → RGBA)
    (voxObject : VoxObject RGBA_255) : list (Vector3.t * RGBA) :=
  let colourPalette := rgba voxObject in
  let halfSizeVector := halfSizeVector (size voxObject) in
  let voxels := xyzi voxObject in
  (fun voxel =>
     let position := voxelPosition halfSizeVector voxel in
     let colour := fromRGBA255 (paletteEntry colourPalette (vi voxel)) in
     (position, colour)) <$> voxels.

End VoxImporter.

(** ** Small inputs for the utilities and the importer *)

Module UtilScenario.

(** Two elements to repeat five times, in a buffer of ten. *)
Definition pattern : list Z := [1; 2; 0; 0; 0; 0; 0; 0; 0; 0].

(** A file of size 3 x 4 x 5 with one voxel in its far corner. *)
Definition voxFile : VoxImporter.VoxObject string :=
  VoxImporter.mkVoxObject (Vector3.mk 3 4 5)
    [VoxImporter.mkVoxVoxel 2 3 4 1] ["black"; "white"].

Definition colourName (c : option string) : string := default "none" c.

End UtilScenario.

(** *** Notions for the converged lighting field *)

#[global] Instance Vector3_eq_dec : EqDecision Vector3.t.
Proof. solve_decision. Defined.

#[global] Instance Action_eq_dec : EqDecision Lighting.Action.
Proof. solve_decision. Defined.

(** The steps to the six axis-aligned neighbours. *)
Definition directions : list Vector3.t :=
  [ Vector3.mk 1 0 0; Vector3.mk (-1) 0 0;
    Vector3.mk 0 1 0; Vector3.mk 0 (-1) 0;
    Vector3.mk 0 0 1; Vector3.mk 0 0 (-1) ].

(** [q] is one step away from [p] along an axis. *)
Definition adjacent (p q : Vector3.t) : Prop :=
  ∃ d, d ∈ directions ∧ q = Vector3.add d p.

(** A worklist entry that has nothing left to do on a lighting field. *)
Definition settled {RGBA : Type} (vm : VoxelMesh RGBA) (L : gmap (Z * Z * Z) Z)
    (a : Lighting.Action) : Prop :=
  match L !! Vector3.stringify (Lighting.pos a) with
  | None => True
  | Some u => Lighting.value a ≤ u ∨ isVoxelAt vm (Lighting.pos a) = true
  end.

(** Every successor of a lit cell is pending or has nothing left to do. *)
Definition relaxed {RGBA : Type} (vm : VoxelMesh RGBA) (st : Lighting.State) : Prop :=
  ∀ p v, Lighting.lighting st !! Vector3.stringify p = Some v → 0 < v →
    ∀ a, a ∈ Lighting.successors p v →
      a ∈ Lighting.actions st ∨ settled vm (Lighting.lighting st) a.

(** Where the light [v] at [p] comes from: the sun plane or the cell above
    for full light, a brighter neighbour otherwise. *)
Definition lit_from {RGBA : Type} (vm : VoxelMesh RGBA) (L : gmap (Z * Z * Z) Z)
    (p : Vector3.t) (v : Z) : Prop :=
  (v = 15 ∧
   (Vector3.y p = Vector3.y (Bounds.max (getBounds vm)) + 1
    ∨ L !! Vector3.stringify (Vector3.add (Vector3.mk 0 1 0) p) = Some 15))
  ∨ (∃ q w, adjacent p q ∧ L !! Vector3.stringify q = Some w ∧ v + 1 ≤ w).

(** Every stored light and every pending entry has a source. *)
Definition sourced {RGBA : Type} (vm : VoxelMesh RGBA) (st : Lighting.State) : Prop :=
  (∀ p v, Lighting.lighting st !! Vector3.stringify p = Some v → 0 < v →
          lit_from vm (Lighting.lighting st) p v) ∧
  (∀ a, a ∈ Lighting.actions st → 0 < Lighting.value a →
        lit_from vm (Lighting.lighting st) (Lighting.pos a) (Lighting.value a)).

(** * Properties *)

Module Vector3Facts.
Lemma eqb_eq a b : Vector3.eqb a b = true ↔ a = b.
Proof.
  destruct a, b; unfold Vector3.eqb; simpl.
  rewrite !andb_true_iff, !Z.eqb_eq. split.
  - intros [[-> ->] ->]; reflexivity.
  - intros [= -> -> ->]; auto.
Qed.

Lemma stringify_inj a b : Vector3.stringify a = Vector3.stringify b → a = b.
Proof. destruct a, b; unfold Vector3.stringify; simpl; congruence. Qed.
End Vector3Facts.

(** ** Lighting *)

Module LightingFacts.
Import Lighting.

#[local] Arguments successors : simpl never.

Lemma elem_of_range lo hi v : v ∈ range lo hi ↔ lo ≤ v ≤ hi.
Proof. unfold range. rewrite elem_of_seqZ. lia. Qed.

Lemma darkness_insert (m : gmap (Z * Z * Z) Z) k cur new :
  m !! k = Some cur → cur < new ≤ 15 →
  (darkness (<[k := new]> m) < darkness m)%nat.
Proof.
  intros Hk Hlt. unfold darkness.
  rewrite (map_fold_delete_L _ _ k cur m); [|intros; lia|done].
  rewrite <- (insert_delete_eq m k new).
  rewrite map_fold_insert_L; [|intros; lia|apply lookup_delete_eq].
  lia.
Qed.

Lemma foldl_set_lookup (l : list Vector3.t) (m : gmap (Z * Z * Z) Z) k :
  foldl (fun m p => <[Vector3.stringify p := 0]> m) m l !! k
  = if decide (k ∈ Vector3.stringify <$> l) then Some 0 else m !! k.
Proof.
  revert m. induction l as [|p l IH]; intros m.
  - destruct (decide (k ∈ Vector3.stringify <$> [])) as [Hin|Hin]; [|done].
    by apply elem_of_nil in Hin.
  - change (foldl (fun m p => <[Vector3.stringify p := 0]> m)
              (<[Vector3.stringify p := 0]> m) l !! k
            = if decide (k ∈ Vector3.stringify p :: (Vector3.stringify <$> l))
              then Some 0 else m !! k).
    rewrite IH.
    destruct (decide (k ∈ Vector3.stringify <$> l)) as [Hin|Hin];
      destruct (decide (k ∈ Vector3.stringify p :: (Vector3.stringify <$> l)))
        as [Hin'|Hin']; try done.
    + exfalso. apply Hin'. by apply elem_of_cons; right.
    + apply elem_of_cons in Hin' as [->|?]; [|done]. apply lookup_insert_eq.
    + rewrite lookup_insert_ne; [done|]. intros <-. apply Hin'.
      apply elem_of_cons; by left.
Qed.

Section WithMesh.
Context {RGBA : Type}.
Variable vm : VoxelMesh RGBA.

Lemma elem_of_volume p : p ∈ volume vm ↔ tracked (getBounds vm) p.
Proof.
  unfold volume, tracked, xs, ys, zs. split.
  - intros Hp.
    apply list_elem_of_bind in Hp as (x & Hp & Hx).
    apply list_elem_of_bind in Hp as (y & Hp & Hy).
    apply list_elem_of_bind in Hp as (z & Hp & Hz).
    apply list_elem_of_singleton in Hp as ->. simpl.
    apply elem_of_range in Hx, Hy, Hz. lia.
  - intros (Hx & Hy & Hz). destruct p as [x y z]; simpl in *.
    apply list_elem_of_bind. exists x. split; [|apply elem_of_range; lia].
    apply list_elem_of_bind. exists y. split; [|apply elem_of_range; lia].
    apply list_elem_of_bind. exists z. split; [|apply elem_of_range; lia].
    apply list_elem_of_singleton. done.
Qed.

Lemma initialLighting_lookup p :
  initialLighting vm !! Vector3.stringify p
  = if decide (tracked (getBounds vm) p) then Some 0 else None.
Proof.
  unfold initialLighting. rewrite foldl_set_lookup, lookup_empty.
  destruct (decide (tracked (getBounds vm) p)) as [Ht|Ht].
  - rewrite decide_True; [done|]. apply list_elem_of_fmap.
    exists p. split; [done|]. by apply elem_of_volume.
  - rewrite decide_False; [done|]. intros Hin.
    apply list_elem_of_fmap in Hin as (q & Hq & Hin).
    apply Vector3Facts.stringify_inj in Hq as ->.
    by apply Ht, elem_of_volume.
Qed.

Lemma initialLighting_value k v : initialLighting vm !! k = Some v → v = 0.
Proof.
  unfold initialLighting. rewrite foldl_set_lookup, lookup_empty.
  case_decide; congruence.
Qed.

Lemma elem_of_emitters a :
  a ∈ emitters vm ↔
  value a = 15 ∧
  Vector3.y (pos a) = Vector3.y (Bounds.max (getBounds vm)) + 1 ∧
  Vector3.x (Bounds.min (getBounds vm)) - 1 ≤ Vector3.x (pos a)
    ≤ Vector3.x (Bounds.max (getBounds vm)) + 1 ∧
  Vector3.z (Bounds.min (getBounds vm)) - 1 ≤ Vector3.z (pos a)
    ≤ Vector3.z (Bounds.max (getBounds vm)) + 1.
Proof.
  unfold emitters, xs, zs. split.
  - intros Ha.
    apply list_elem_of_bind in Ha as (x & Ha & Hx).
    apply list_elem_of_bind in Ha as (z & Ha & Hz).
    apply list_elem_of_singleton in Ha as ->. simpl.
    apply elem_of_range in Hx, Hz. lia.
  - intros (Hv & Hy & Hx & Hz). destruct a as [[x y z] v]; simpl in *. subst.
    apply list_elem_of_bind. exists x. split; [|apply elem_of_range; lia].
    apply list_elem_of_bind. exists z. split; [|apply elem_of_range; lia].
    apply list_elem_of_singleton. done.
Qed.

Lemma step_None st : step vm st = None ↔ actions st = [].
Proof.
  unfold step. destruct (actions st) as [|a rest]; [done|].
  split; [|done]. simpl.
  destruct (lighting st !! _); [|done]. by case_match.
Qed.

(** The two ways an iteration can go: the entry is dropped, or the
    stored value is raised and the six successors are pushed. *)
Lemma step_cases st st' :
  step vm st = Some st' →
  ∃ a rest, actions st = a :: rest ∧
    ((st' = mkState (lighting st) rest ∧
      (lighting st !! Vector3.stringify (pos a) = None
       ∨ ∃ cur, lighting st !! Vector3.stringify (pos a) = Some cur
                ∧ (value a ≤ cur ∨ isVoxelAt vm (pos a) = true)))
     ∨ (∃ cur, lighting st !! Vector3.stringify (pos a) = Some cur
               ∧ cur < value a ∧ isVoxelAt vm (pos a) = false
               ∧ st' = mkState (<[Vector3.stringify (pos a) := value a]> (lighting st))
                               (successors (pos a) (value a) ++ rest))).
Proof.
  unfold step. destruct (actions st) as [|a rest]; [done|].
  intros Hst. exists a, rest. split; [done|]. simpl in Hst.
  destruct (lighting st !! Vector3.stringify (pos a)) as [cur|] eqn:Hcur.
  - destruct (value a >? cur) eqn:Hgt; simpl in Hst.
    + destruct (isVoxelAt vm (pos a)) eqn:Hocc; simpl in Hst;
        injection Hst as <-.
      * left. split; [done|]. right. exists cur. auto.
      * right. exists cur. repeat split; try done. lia.
    + injection Hst as <-. left. split; [done|]. right. exists cur.
      split; [done|]. left. lia.
  - injection Hst as <-. left. auto.
Qed.

Lemma successors_value p v a : a ∈ successors p v → v ≤ 15 → value a ≤ 15.
Proof.
  unfold successors. intros Ha Hv.
  repeat (apply elem_of_cons in Ha as [->|Ha]; [simpl; try case_match; lia|]).
  by apply elem_of_nil in Ha.
Qed.

Lemma initialState_inv : LightingInv vm (initialState vm).
Proof.
  split; simpl.
  - intros k v Hk. apply initialLighting_value in Hk. lia.
  - intros a Ha. apply elem_of_reverse, elem_of_emitters in Ha. lia.
  - done.
  - intros p v _ Hk. by apply initialLighting_value in Hk.
  - intros a Ha _. left. by apply elem_of_reverse.
Qed.

Lemma step_inv st st' :
  LightingInv vm st → step vm st = Some st' →
  LightingInv vm st' ∧ (budget st' < budget st)%nat.
Proof.
  intros [Hb Ha Hd Ho Hs] Hstep.
  apply step_cases in Hstep as (a & rest & Hact & [[-> Hwhy]|Hupd]).
  - split; [|unfold budget; rewrite Hact; simpl; lia].
    split; simpl; try done.
    + intros a' Ha'. apply Ha. rewrite Hact. by apply elem_of_cons; right.
    + intros e He Ht. destruct (Hs e He Ht) as [Hin|[Hocc|H15]]; auto.
      rewrite Hact in Hin. apply elem_of_cons in Hin as [->|Hin]; auto.
      destruct Hwhy as [Hnone|(cur & Hcur & [Hle|Hocc])]; auto.
      * exfalso.
        pose proof (proj2 (Hd (Vector3.stringify (pos a)))) as Hsome.
        rewrite initialLighting_lookup, decide_True, Hnone in Hsome by done.
        destruct Hsome as [? ?]; [eauto|done].
      * right; right. apply elem_of_emitters in He as [He _].
        pose proof (Hb _ _ Hcur). rewrite Hcur. f_equal. lia.
  - destruct Hupd as (cur & Hcur & Hlt & Hocc & ->).
    assert (value a ≤ 15) as Hv.
    { apply Ha. rewrite Hact. apply elem_of_cons; by left. }
    pose proof (Hb _ _ Hcur) as Hcb.
    split.
    + split; cbn [lighting actions].
      * intros k v Hk. destruct (decide (Vector3.stringify (pos a) = k)) as [<-|Hne].
        -- rewrite lookup_insert_eq in Hk. injection Hk as <-. lia.
        -- rewrite lookup_insert_ne in Hk by done. eauto.
      * intros a' Ha'. apply elem_of_app in Ha' as [Ha'|Ha'].
        -- by eapply successors_value.
        -- apply Ha. rewrite Hact. by apply elem_of_cons; right.
      * intros k. rewrite <- Hd.
        destruct (decide (Vector3.stringify (pos a) = k)) as [<-|Hne].
        -- rewrite lookup_insert_eq, Hcur. split; eauto.
        -- by rewrite lookup_insert_ne.
      * intros p v Hp Hk.
        destruct (decide (Vector3.stringify (pos a) = Vector3.stringify p)) as [Heq|Hne].
        -- apply Vector3Facts.stringify_inj in Heq as <-. congruence.
        -- rewrite lookup_insert_ne in Hk by done. eauto.
      * intros e He Ht. destruct (Hs e He Ht) as [Hin|[Hocc'|H15]]; auto.
        -- rewrite Hact in Hin. apply elem_of_cons in Hin as [->|Hin].
           ++ right; right. apply elem_of_emitters in He as [-> _].
              apply lookup_insert_eq.
           ++ left. apply elem_of_app. by right.
        -- right; right.
           destruct (decide (Vector3.stringify (pos a) = Vector3.stringify (pos e)))
             as [Heq|Hne].
           ++ rewrite <- Heq in H15. rewrite Hcur in H15. injection H15 as ->. lia.
           ++ by rewrite lookup_insert_ne.
    + unfold budget; cbn [lighting actions]. rewrite Hact, length_app.
      change (length (successors (pos a) (value a))) with 6%nat.
      cbn [length].
      pose proof (darkness_insert (lighting st) _ cur (value a) Hcur ltac:(lia)).
      lia.
Qed.

Lemma reachable_inv st : reachable vm st → LightingInv vm st.
Proof.
  induction 1 as [|st st' _ IH Hstep].
  - apply initialState_inv.
  - by apply (step_inv st st').
Qed.

(** The loop ends within the budget of the state it starts in, in a
    state with an empty worklist. *)
Lemma loop_total fuel st :
  reachable vm st → (budget st ≤ fuel)%nat →
  ∃ st', loop vm fuel st = Some st' ∧ actions st' = [] ∧ reachable vm st'.
Proof.
  revert st. induction fuel as [|fuel IH]; intros st Hr Hfuel.
  - destruct (step vm st) as [st'|] eqn:Hstep.
    + apply step_inv in Hstep as [_ Hlt]; [lia|by apply reachable_inv].
    + exists st. simpl. rewrite Hstep. by apply step_None in Hstep.
  - simpl. destruct (step vm st) as [st'|] eqn:Hstep.
    + apply IH; [by eapply reachable_step|].
      apply step_inv in Hstep as [_ Hlt]; [lia|by apply reachable_inv].
    + exists st. by apply step_None in Hstep.
Qed.

Lemma calculateLighting_total :
  ∃ st, calculateLighting vm = Some (lighting st)
        ∧ actions st = [] ∧ reachable vm st.
Proof.
  destruct (loop_total (budget (initialState vm)) (initialState vm))
    as (st & Hloop & Hact & Hr); [constructor|done|].
  exists st. unfold calculateLighting. by rewrite Hloop.
Qed.

End WithMesh.
End LightingFacts.

(** *** What the specification says of the propagation *)

Section LightingClaims.
Import Lighting LightingFacts.
Context {RGBA : Type}.
Variable vm : VoxelMesh RGBA.

#[local] Arguments successors : simpl never.

(** Every unoccupied cell of the top layer of the tracked volume ends
    with full light. *)
Lemma top_layer_lit L p :
  calculateLighting vm = Some L →
  tracked (getBounds vm) p →
  Vector3.y p = Vector3.y (Bounds.max (getBounds vm)) + 1 →
  isVoxelAt vm p = false →
  L !! Vector3.stringify p = Some 15.
Proof.
  intros HL Ht Hy Hocc.
  destruct (calculateLighting_total vm) as (st & Hst & Hact & Hr).
  rewrite HL in Hst. injection Hst as ->.
  apply reachable_inv in Hr.
  destruct (inv_sunlit vm st Hr (mkAction p 15)) as [Hin|[Hin|Hin]]; try done.
  - apply elem_of_emitters. simpl. unfold tracked in Ht. lia.
  - rewrite Hact in Hin. by apply elem_of_nil in Hin.
  - simpl in Hin. congruence.
Qed.

(** C3: whenever an iteration changes the lighting field, it stored the
    value [v] of the entry it popped at that entry's coordinate, and it
    pushed exactly six entries on the rest of the worklist, one per
    axis-aligned neighbour: those towards +Y, +X, +Z, -X and -Z carry
    [v - 1], the one towards -Y carries [v] when [v = 15] and [v - 1]
    otherwise. *)
Theorem C3_update_pushes_six_successors (st st' : State) :
  step vm st = Some st' →
  lighting st' ≠ lighting st →
  ∃ a rest,
    actions st = a :: rest ∧
    let v := value a in
    let '(Vector3.mk x y z) := pos a in
    lighting st' = <[(x, y, z) := v]> (lighting st) ∧
    actions st' =
      [ mkAction (Vector3.mk x (y - 1) z) (if decide (v = 15) then v else v - 1);
        mkAction (Vector3.mk x y (z - 1)) (v - 1);
        mkAction (Vector3.mk (x - 1) y z) (v - 1);
        mkAction (Vector3.mk x y (z + 1)) (v - 1);
        mkAction (Vector3.mk (x + 1) y z) (v - 1);
        mkAction (Vector3.mk x (y + 1) z) (v - 1) ] ++ rest ∧
    length (actions st') = (6 + length rest)%nat.
Proof.
  intros Hstep Hne.
  apply step_cases in Hstep as (a & rest & Hact & [[-> _]|Hupd]); [done|].
  destruct Hupd as (cur & Hcur & Hlt & Hocc & ->).
  exists a, rest. split; [done|]. cbn [lighting actions].
  destruct a as [[x y z] v]; cbn [pos value] in *.
  split; [done|]. split; [|by rewrite length_app].
  unfold successors, Vector3.add; cbn [Vector3.x Vector3.y Vector3.z].
  rewrite !Z.add_0_l, !(Z.add_comm 1), !(Z.add_comm (-1)).
  change (-1) with (- (1)). rewrite !Z.add_opp_r.
  destruct (decide (v = 15)) as [->|Hv].
  - by rewrite Z.eqb_refl.
  - apply Z.eqb_neq in Hv as Hv'. by rewrite Hv'.
Qed.

(** One element of a duplicate-free list is singled out by a filter. *)
Lemma filter_pick {A} (P : A → Prop) `{∀ a, Decision (P a)} (l : list A) a0 :
  NoDup l → a0 ∈ l → (∀ a, a ∈ l → P a ↔ a = a0) → filter P l = [a0].
Proof.
  intros Hnd Hin HP.
  induction Hnd as [|a l Hnotin Hnd IH].
  - by apply elem_of_nil in Hin.
  - apply elem_of_cons in Hin as [<-|Hin].
    + rewrite filter_cons_True by (apply HP; [apply elem_of_cons; by left|done]).
      f_equal. apply elem_of_nil_inv. intros b Hb.
      apply list_elem_of_filter in Hb as [Hb Hbl].
      apply HP in Hb as ->; [done|]. by apply elem_of_cons; right.
    + rewrite filter_cons_False.
      * apply IH; [done|]. intros b Hb. apply HP. by apply elem_of_cons; right.
      * intros Ha. apply HP in Ha as ->; [done|]. apply elem_of_cons; by left.
Qed.

Lemma NoDup_emitters : NoDup (emitters vm).
Proof.
  unfold emitters. apply NoDup_bind.
  - intros x1 x2 a _ _ H1 H2.
    apply list_elem_of_bind in H1 as (z1 & H1 & _).
    apply list_elem_of_bind in H2 as (z2 & H2 & _).
    apply list_elem_of_singleton in H1, H2. congruence.
  - intros x _. apply NoDup_bind.
    + intros z1 z2 a _ _ H1 H2.
      apply list_elem_of_singleton in H1, H2. congruence.
    + intros. apply NoDup_singleton.
    + apply NoDup_seqZ.
  - apply NoDup_seqZ.
Qed.

(** C4 (amended): the initial worklist holds, for every (x,z) column of
    the expanded bounds, exactly one entry, with light value 15 at
    [y = bounds.max.y + 1], and nothing else; when the expanded bounds
    have a layer at all, this seed layer is the top layer of the tracked
    volume: every seed coordinate is a key of the lighting field, holding
    0, and the coordinate above it is not. *)
Theorem C4_seed_layer_is_top_layer :
  let b := getBounds vm in
  let top := Vector3.y (Bounds.max b) + 1 in
  (∀ x z,
      Vector3.x (Bounds.min b) - 1 ≤ x ≤ Vector3.x (Bounds.max b) + 1 →
      Vector3.z (Bounds.min b) - 1 ≤ z ≤ Vector3.z (Bounds.max b) + 1 →
      filter (fun a => Vector3.x (pos a) = x ∧ Vector3.z (pos a) = z)
             (actions (initialState vm))
      = [mkAction (Vector3.mk x top z) 15]) ∧
  (∀ a, a ∈ actions (initialState vm) →
      value a = 15 ∧ Vector3.y (pos a) = top ∧
      Vector3.x (Bounds.min b) - 1 ≤ Vector3.x (pos a) ≤ Vector3.x (Bounds.max b) + 1 ∧
      Vector3.z (Bounds.min b) - 1 ≤ Vector3.z (pos a) ≤ Vector3.z (Bounds.max b) + 1) ∧
  (Vector3.y (Bounds.min b) - 1 ≤ top →
   ∀ a, a ∈ actions (initialState vm) →
      tracked b (pos a) ∧
      lighting (initialState vm) !! Vector3.stringify (pos a) = Some 0 ∧
      ¬ tracked b (Vector3.add (Vector3.mk 0 1 0) (pos a)) ∧
      lighting (initialState vm)
        !! Vector3.stringify (Vector3.add (Vector3.mk 0 1 0) (pos a)) = None).
Proof.
  intros b top. cbn [actions lighting initialState]. split; [|split].
  - intros x z Hx Hz. apply filter_pick.
    + rewrite reverse_Permutation. apply NoDup_emitters.
    + apply elem_of_reverse, elem_of_emitters. simpl. subst top b. lia.
    + intros a Ha. apply elem_of_reverse, elem_of_emitters in Ha.
      destruct a as [[ax ay az] av]; simpl in *. split.
      * intros [-> ->]. f_equal; [f_equal|]; subst top b; lia.
      * intros [= -> -> -> ->]. done.
  - intros a Ha. by apply elem_of_reverse, elem_of_emitters in Ha.
  - intros Hy a Ha. apply elem_of_reverse, elem_of_emitters in Ha.
    assert (tracked b (pos a)) as Ht by (unfold tracked; subst top b; lia).
    assert (¬ tracked b (Vector3.add (Vector3.mk 0 1 0) (pos a))) as Hnt.
    { unfold tracked, Vector3.add; simpl. subst top b. lia. }
    rewrite !initialLighting_lookup.
    rewrite decide_True, decide_False by done. done.
Qed.

(** C7: the propagation ends, with an empty worklist; in the lighting
    field it leaves, and in every state it goes through, each stored
    value lies in [0,15] and the value stored at an occupied coordinate
    is 0; every occupied coordinate of the tracked volume has a stored
    value; and an entry popped at an occupied coordinate is dropped:
    the field and the rest of the worklist stay as they are. *)
Theorem C7_values_bounded_and_occupied_dark :
  (∃ st, calculateLighting vm = Some (lighting st) ∧ actions st = []
         ∧ reachable vm st) ∧
  (∀ st, reachable vm st →
     (∀ k v, lighting st !! k = Some v → 0 ≤ v ≤ 15) ∧
     (∀ p, isVoxelAt vm p = true →
           (tracked (getBounds vm) p →
            lighting st !! Vector3.stringify p = Some 0) ∧
           (∀ v, lighting st !! Vector3.stringify p = Some v → v = 0)) ∧
     (∀ a rest, actions st = a :: rest → isVoxelAt vm (pos a) = true →
                step vm st = Some (mkState (lighting st) rest))).
Proof.
  split; [apply calculateLighting_total|].
  intros st Hr. apply reachable_inv in Hr as Hinv.
  destruct Hinv as [Hb Ha Hd Ho Hs]. split; [done|]. split.
  - intros p Hp. split; [|by eauto].
    intros Ht. pose proof (proj2 (Hd (Vector3.stringify p))) as Hsome.
    rewrite initialLighting_lookup, decide_True in Hsome by done.
    destruct Hsome as [v Hv]; [eauto|]. rewrite Hv. f_equal. eauto.
  - intros a rest Hact Hocc. unfold step. rewrite Hact, Hocc. cbn [negb].
    destruct (lighting st !! _); [|done]. by rewrite andb_false_r.
Qed.

End LightingClaims.

Section IsolatedVoxel.
Import Lighting LightingFacts.
Context {RGBA : Type}.
Variable v : Voxel RGBA.

Lemma singleVoxelMesh_free p :
  Vector3.y p ≠ Vector3.y (position v) → isVoxelAt (singleVoxelMesh v) p = false.
Proof.
  intros Hy. simpl. destruct (Vector3.eqb p (position v)) eqn:Heq; [|done].
  apply Vector3Facts.eqb_eq in Heq. congruence.
Qed.

(** C5 (amended): for a voxel source with exactly one voxel, the
    propagation ends and every cell of the tracked volume above that
    voxel has light level 15; each cell at the same height one step to
    the side is an open cell of the tracked volume and has light level 15
    as well. *)
Theorem C5_isolated_voxel_top_layer_fully_lit :
  ∃ L, calculateLighting (singleVoxelMesh v) = Some L ∧
    ∀ p, tracked (getBounds (singleVoxelMesh v)) p → above v p →
      L !! Vector3.stringify p = Some 15 ∧
      ∀ q, beside p q →
        isVoxelAt (singleVoxelMesh v) q = false ∧
        tracked (getBounds (singleVoxelMesh v)) q ∧
        L !! Vector3.stringify q = Some 15.
Proof.
  destruct (calculateLighting_total (singleVoxelMesh v)) as (st & HL & _ & _).
  exists (lighting st). split; [done|].
  intros p Ht (Hx & Hz & Hy).
  assert (Vector3.y p = Vector3.y (position v) + 1) as Hyp.
  { unfold tracked in Ht; simpl in Ht. lia. }
  split.
  - apply (top_layer_lit (singleVoxelMesh v)); try done.
    apply singleVoxelMesh_free. lia.
  - intros q (Hqy & Hq).
    assert (tracked (getBounds (singleVoxelMesh v)) q) as Hqt.
    { unfold tracked in *; simpl in *. lia. }
    assert (isVoxelAt (singleVoxelMesh v) q = false) as Hqf.
    { apply singleVoxelMesh_free. lia. }
    split; [done|]. split; [done|].
    apply (top_layer_lit (singleVoxelMesh v)); try done. simpl. lia.
Qed.

End IsolatedVoxel.

(** *** The propagation on the single sand voxel *)

Module LightingExamples.
Import Lighting LightingFacts Scenario.

Lemma C3_witness :
  step sandMesh (initialState sandMesh) = Some afterFirstStep ∧
  ∃ a rest,
    actions (initialState sandMesh) = a :: rest ∧
    length (actions afterFirstStep) = (6 + length rest)%nat.
Proof.
  assert (step sandMesh (initialState sandMesh) = Some afterFirstStep) as Hstep.
  { vm_compute. reflexivity. }
  split; [exact Hstep|].
  destruct (C3_update_pushes_six_successors sandMesh _ _ Hstep)
    as (a & rest & Hact & Hrest).
  { intros Heq. apply (f_equal (fun m => m !! (1, 1, 1))) in Heq.
    vm_compute in Heq. discriminate. }
  exists a, rest. split; [exact Hact|].
  destruct (pos a). apply Hrest.
Defined.

Lemma C4_witness :
  filter (fun a => Vector3.x (pos a) = 0 ∧ Vector3.z (pos a) = 0)
         (actions (initialState sandMesh))
  = [mkAction (Vector3.mk 0 1 0) 15] ∧
  lighting (initialState sandMesh) !! (0, 1, 0) = Some 0 ∧
  lighting (initialState sandMesh) !! (0, 2, 0) = None.
Proof.
  destruct (C4_seed_layer_is_top_layer sandMesh) as (Hone & _ & Htop).
  split; [apply (Hone 0 0); simpl; lia|].
  destruct (Htop ltac:(simpl; lia) (mkAction (Vector3.mk 0 1 0) 15))
    as (_ & Hin & _ & Hout).
  - apply elem_of_reverse, elem_of_emitters. simpl. lia.
  - split; [exact Hin|exact Hout].
Defined.

(** The sentence of the specification on the seed layer fails on the
    single voxel at the origin: the seed at (0,1,0) is a cell of the
    tracked volume. *)
Lemma C4_counterexample : ¬ spec_seed_layer_above_volume sandMesh.
Proof.
  intros Hspec.
  destruct (Hspec (mkAction (Vector3.mk 0 1 0) 15)) as (_ & _ & Hnt & _).
  - apply elem_of_reverse, elem_of_emitters. simpl. lia.
  - apply Hnt. unfold tracked. simpl. lia.
Qed.

Lemma C5_witness :
  ∃ L, calculateLighting sandMesh = Some L ∧
       L !! (0, 1, 0) = Some 15 ∧ L !! (1, 1, 0) = Some 15.
Proof.
  destruct (C5_isolated_voxel_top_layer_fully_lit sand) as (L & HL & Hlit).
  exists L. split; [exact HL|].
  destruct (Hlit (Vector3.mk 0 1 0)) as (Habove & Hside).
  - unfold tracked; simpl; lia.
  - unfold above; simpl; lia.
  - split; [exact Habove|].
    apply (Hside (Vector3.mk 1 1 0)). unfold beside; simpl; lia.
Defined.

(** The sentence of the specification on an isolated voxel fails on the
    single voxel at the origin: the open cell (1,1,0), beside the cell
    (0,1,0) above the voxel, ends with light level 15. *)
Lemma C5_counterexample : ¬ spec_isolated_voxel_lighting sand.
Proof.
  intros (L & HL & Hspec).
  destruct (Hspec (Vector3.mk 0 1 0)) as (_ & Hside).
  - unfold tracked; simpl; lia.
  - unfold above; simpl; lia.
  - destruct (Hside (Vector3.mk 1 1 0)) as (l & Hl & Hle).
    + unfold beside; simpl; lia.
    + reflexivity.
    + rewrite (top_layer_lit sandMesh L (Vector3.mk 1 1 0)) in Hl.
      * injection Hl as <-. lia.
      * exact HL.
      * unfold tracked; simpl; lia.
      * reflexivity.
      * reflexivity.
Qed.

(** The field around the single voxel: dark at the voxel, full light
    beside it, 14 in the cell below it. *)
Example sand_lighting :
  (fun L => (L !! (0, 0, 0), L !! (1, 0, 0), L !! (0, 0, 1), L !! (0, -1, 0),
             L !! (0, 2, 0)))
    <$> calculateLighting sandMesh
  = Some (Some 0, Some 15, Some 15, Some 14, None).
Proof. vm_compute. reflexivity. Qed.

Lemma C7_witness :
  ∃ L, calculateLighting sandMesh = Some L ∧
       L !! (0, 0, 0) = Some 0 ∧
       (∀ v, L !! (1, 0, 0) = Some v → 0 ≤ v ≤ 15).
Proof.
  destruct (C7_values_bounded_and_occupied_dark sandMesh)
    as ((st & HL & _ & Hr) & Hall).
  destruct (Hall st Hr) as (Hbound & Hocc & _).
  exists (lighting st). split; [exact HL|]. split.
  - apply (Hocc origin); [reflexivity|]. unfold tracked; simpl; lia.
  - intros v Hv. exact (Hbound _ _ Hv).
Defined.

End LightingExamples.

(** ** Block assignment *)

Section AssignFacts.
Context `{ExternalTypes} `{!Collaborators}.

Lemma includes_true l s : includes l s = true ↔ s ∈ l.
Proof. unfold includes. apply bool_decide_eq_true. Qed.

Lemma includes_false l s : includes l s = false ↔ s ∉ l.
Proof. unfold includes. apply bool_decide_eq_false. Qed.

Section Pass.
Variable params : AssignParams_Input.
Variable ap : AtlasPalette.
Variables all nonF : list BlockInfo.
Variable assigner : IBlockAssigner.
Variable fb : list string.
Variable vm : VoxelMesh RGBA.

#[local] Abbreviation out := (outcome params ap all nonF assigner fb vm).
#[local] Abbreviation pass := (passOutcome params ap all nonF assigner fb vm).

Lemma assignVoxel_outcome this cf w v :
  _fallableBlocks this = fb → _voxelMesh this = vm →
  ∃ this',
    assignVoxel params ap all nonF assigner (this, cf, w) v
    = (this', cf + (if (out w v).1.2 then 1 else 0), (out w v).2) ∧
    _blocks this' = _blocks this ++ [mkBlock v (out w v).1.1] ∧
    _blocksUsed this'
    = addUsed (_blocksUsed this) (BlockInfo_name (out w v).1.1) ∧
    _fallableBlocks this' = fb ∧ _voxelMesh this' = vm.
Proof.
  intros Hfb Hvm. unfold assignVoxel, outcome, addUsed. rewrite Hfb, Hvm.
  destruct (call_assignBlock assigner ap (colour v) (position v)
              (resolution params) (colourSpace params) all w) as [cand w1].
  destruct (call_assignBlock assigner ap (colour v) (position v)
              (resolution params) ColourSpace_RGB nonF w1) as [block w2].
  destruct (includes fb (BlockInfo_name cand));
    destruct (isVoxelAt vm _);
    destruct (shouldReplace _ _ _);
    cbn [fst snd push_block _blocksUsed andb negb];
    rewrite ?Z.add_0_r;
    match goal with
    | |- context [includes (_blocksUsed this) ?n] =>
        destruct (includes (_blocksUsed this) n)
    end;
    cbn [negb]; eexists; (split; [reflexivity|]); by cbn.
Qed.

(** The whole loop, in terms of what each iteration does. *)
Lemma foldl_assignVoxel vs this cf w :
  _fallableBlocks this = fb → _voxelMesh this = vm →
  ∃ this',
    foldl (assignVoxel params ap all nonF assigner) (this, cf, w) vs
    = (this',
       cf + Z.of_nat (length (filter (fun r => r.2 = true) (pass w vs).1)),
       (pass w vs).2) ∧
    _blocks this' = _blocks this ++ (pass w vs).1.*1 ∧
    _blocksUsed this'
    = foldl addUsed (_blocksUsed this)
        ((fun r => BlockInfo_name (blockInfo r.1)) <$> (pass w vs).1) ∧
    _fallableBlocks this' = fb ∧ _voxelMesh this' = vm.
Proof.
  revert this cf w. induction vs as [|v vs IH]; intros this cf w Hfb Hvm.
  - exists this. cbn. rewrite Z.add_0_r, app_nil_r. done.
  - cbn [foldl passOutcome].
    destruct (assignVoxel_outcome this cf w v Hfb Hvm)
      as (this1 & -> & Hb1 & Hu1 & Hfb1 & Hvm1).
    destruct (out w v) as [[b f] w1]. cbn [fst snd] in *.
    destruct (IH this1 (cf + (if f then 1 else 0)) w1 Hfb1 Hvm1)
      as (this' & -> & Hb & Hu & Hfb' & Hvm').
    destruct (pass w1 vs) as [rs w2]. cbn [fst snd] in *.
    exists this'. rewrite Hb, Hu, Hb1, Hu1. cbn [fmap list_fmap fst snd foldl blockInfo].
    rewrite <- app_assoc. split; [|done].
    f_equal. f_equal. destruct f.
    + rewrite filter_cons_True by done. cbn [length]. lia.
    + rewrite filter_cons_False by done. lia.
Qed.

Lemma passOutcome_voxels w vs : voxel <$> (pass w vs).1.*1 = vs.
Proof.
  revert w. induction vs as [|v vs IH]; intros w; [done|].
  cbn [passOutcome]. destruct (out w v) as [[b f] w1].
  specialize (IH w1). destruct (pass w1 vs) as [rs w2].
  cbn in *. by rewrite IH.
Qed.

End Pass.

(** When the atlas and the palette load, [_assignBlocks] returns; its
    result is the loop's, with the warning when it is due. *)
Lemma assignBlocks_Ok this params w atlas palette :
  Atlas_load (textureAtlas params) = Some atlas →
  Palette_load (blockPalette params) = Some palette →
  let ap := mkAtlasPalette atlas palette in
  let all := createBlockCollection ap [] in
  let nonF := createBlockCollection ap (_fallableBlocks this) in
  let assigner := GetAssigner (blockAssigner params) in
  let pass := passOutcome params ap all nonF assigner (_fallableBlocks this)
                (_voxelMesh this) w (getVoxels (_voxelMesh this)) in
  let count := Z.of_nat (length (filter (fun r => r.2 = true) pass.1)) in
  ∃ this',
    _assignBlocks this params w
    = Ok (this',
          if bool_decide (fallable params = do_nothing) && (count >? 0)
          then StatusHandler_add "warning" (fallingWarning count) pass.2
          else pass.2) ∧
    _blocks this' = _blocks this ++ pass.1.*1 ∧
    _blocksUsed this'
    = foldl addUsed (_blocksUsed this)
        ((fun r => BlockInfo_name (blockInfo r.1)) <$> pass.1) ∧
    _voxelMesh this' = _voxelMesh this.
Proof.
  intros Hatlas Hpalette ap all nonF assigner pass count.
  unfold _assignBlocks. rewrite Hatlas, Hpalette.
  destruct (foldl_assignVoxel params ap all nonF assigner (_fallableBlocks this)
              (_voxelMesh this) (getVoxels (_voxelMesh this))
              (set_atlas this atlas) 0 w eq_refl eq_refl)
    as (this' & Hfold & Hb & Hu & _ & Hvm).
  cbn [set_atlas _fallableBlocks _voxelMesh _blocks _blocksUsed] in *.
  fold ap all nonF assigner. rewrite Hfold. fold pass. rewrite Z.add_0_l. fold count.
  exists this'. split; [|done]. by destruct (_ && _).
Qed.

(** The lighting pass never runs out of iterations. *)
Lemma calculateLighting_Ok this :
  ∃ L, Lighting.calculateLighting (_voxelMesh this) = Some L
       ∧ _calculateLighting this = Ok (set_lighting this L).
Proof.
  destruct (LightingFacts.calculateLighting_total (_voxelMesh this)) as (st & HL & _).
  exists (Lighting.lighting st). unfold _calculateLighting. by rewrite HL.
Qed.

(** When the atlas and the palette load, the factory returns the mesh of
    the assignment with the lighting of its voxel mesh. *)
Lemma createFromVoxelMesh_Ok vm fb params w atlas palette :
  Atlas_load (textureAtlas params) = Some atlas →
  Palette_load (blockPalette params) = Some palette →
  ∃ this' w' L,
    _assignBlocks (new_BlockMesh vm fb) params w = Ok (this', w') ∧
    Lighting.calculateLighting vm = Some L ∧
    createFromVoxelMesh vm fb params w = Ok (set_lighting this' L, w').
Proof.
  intros Hatlas Hpalette.
  destruct (assignBlocks_Ok (new_BlockMesh vm fb) params w atlas palette
              Hatlas Hpalette) as (this' & Hok & _ & _ & Hvm).
  destruct (calculateLighting_Ok this') as (L & HL & Hlight).
  rewrite Hvm in HL. cbn [new_BlockMesh _voxelMesh] in HL.
  eexists this', _, L. split; [exact Hok|]. split; [exact HL|].
  unfold createFromVoxelMesh. rewrite Hok. cbn zeta. by rewrite Hlight.
Qed.

(** *** The used-name list *)

Lemma elem_of_firstOccurrences l s : s ∈ firstOccurrences l ↔ s ∈ l.
Proof.
  induction l as [|t l IH]; [done|]. cbn [firstOccurrences].
  rewrite !elem_of_cons, list_elem_of_filter, IH.
  destruct (decide (s = t)); tauto.
Qed.

Lemma NoDup_firstOccurrences l : NoDup (firstOccurrences l).
Proof.
  induction l as [|t l IH]; cbn [firstOccurrences]; [constructor|].
  apply NoDup_cons. split.
  - rewrite list_elem_of_filter. tauto.
  - by apply NoDup_filter.
Qed.

Lemma foldl_addUsed l used :
  foldl addUsed used l = used ++ filter (fun s => s ∉ used) (firstOccurrences l).
Proof.
  revert used. induction l as [|t l IH]; intros used.
  - cbn. by rewrite app_nil_r.
  - cbn [foldl firstOccurrences]. rewrite IH. unfold addUsed.
    destruct (includes used t) eqn:Hin; cbn [negb].
    + apply includes_true in Hin.
      rewrite filter_cons_False by tauto.
      rewrite list_filter_filter. f_equal. apply list_filter_iff.
      intros s. split; [|tauto]. intros Hs. split; [done|]. congruence.
    + apply includes_false in Hin.
      rewrite filter_cons_True by done.
      rewrite <- app_assoc. cbn [app]. do 2 f_equal.
      rewrite list_filter_filter. apply list_filter_iff.
      intros s. rewrite elem_of_app, list_elem_of_singleton. tauto.
Qed.

Lemma foldl_addUsed_nil l : foldl addUsed [] l = firstOccurrences l.
Proof.
  rewrite foldl_addUsed. cbn [app].
  induction (firstOccurrences l) as [|s k IH]; [done|].
  rewrite filter_cons_True by apply not_elem_of_nil. by rewrite IH.
Qed.

(** *** The substitution rule *)

Lemma shouldReplace_spec mode (isFallable isSupported : bool) :
  shouldReplace mode isFallable isSupported = true
  ↔ spec_replaced mode (isFallable = true) (isSupported = true).
Proof.
  unfold shouldReplace, spec_replaced.
  destruct mode, isFallable, isSupported; cbn; split;
    try done; try (intros [[? ?]|[? [? ?]]]; done); intros _; auto.
Qed.

End AssignFacts.

(** *** What the specification says of the assignment *)

Section AssignClaims.
Context `{ExternalTypes} `{!Collaborators}.

Variable vm : VoxelMesh RGBA.
Variable fb : list string.
Variable params : AssignParams_Input.
Variable w : World.
Variable atlas : Atlas.
Variable palette : Palette.

Let ap := mkAtlasPalette atlas palette.
Let all := createBlockCollection ap [].
Let nonF := createBlockCollection ap fb.
Let assigner := GetAssigner (blockAssigner params).
Let assignEvent (cs : ColourSpace) (coll : list BlockInfo) (v : Voxel RGBA) : Event :=
  EvAssignBlock ap (colour v) (position v) (resolution params) cs coll.

(** C1: when the atlas and the palette load, the assignment on a new
    block mesh returns, the blocks list is as long as the list of voxels
    of the source, and the voxel of the i-th block is the i-th voxel. *)
Theorem C1_one_block_per_voxel_in_order :
  Atlas_load (textureAtlas params) = Some atlas →
  Palette_load (blockPalette params) = Some palette →
  ∃ this' w',
    _assignBlocks (new_BlockMesh vm fb) params w = Ok (this', w') ∧
    length (getBlocks this') = length (getVoxels vm) ∧
    ∀ i, voxel <$> (getBlocks this' !! i) = getVoxels vm !! i.
Proof.
  intros Hatlas Hpalette.
  destruct (assignBlocks_Ok (new_BlockMesh vm fb) params w atlas palette
              Hatlas Hpalette) as (this' & Hok & Hblocks & _ & _).
  cbn [new_BlockMesh _blocks _voxelMesh _fallableBlocks app] in *.
  eexists this', _. split; [exact Hok|].
  assert (voxel <$> getBlocks this' = getVoxels vm) as Hvoxels.
  { unfold getBlocks. rewrite Hblocks. apply passOutcome_voxels. }
  split.
  - by rewrite <- Hvoxels, length_fmap.
  - intros i. by rewrite <- Hvoxels, list_lookup_fmap.
Qed.

(** C8: after the assignment on a new block mesh, the used-name list is
    the list of the names of the blocks in the order of their first
    occurrence: it has no duplicates and holds exactly the names that
    were given to some voxel. *)
Theorem C8_used_names_first_occurrence_order :
  Atlas_load (textureAtlas params) = Some atlas →
  Palette_load (blockPalette params) = Some palette →
  ∃ this' w',
    _assignBlocks (new_BlockMesh vm fb) params w = Ok (this', w') ∧
    let names := (fun b => BlockInfo_name (blockInfo b)) <$> getBlocks this' in
    getBlockPalette this' = firstOccurrences names ∧
    NoDup (getBlockPalette this') ∧
    ∀ n, n ∈ getBlockPalette this' ↔ n ∈ names.
Proof.
  intros Hatlas Hpalette.
  destruct (assignBlocks_Ok (new_BlockMesh vm fb) params w atlas palette
              Hatlas Hpalette) as (this' & Hok & Hblocks & Hused & _).
  cbn [new_BlockMesh _blocks _blocksUsed _voxelMesh _fallableBlocks app] in *.
  eexists this', _. split; [exact Hok|]. cbn zeta.
  assert (getBlockPalette this'
          = firstOccurrences ((fun b => BlockInfo_name (blockInfo b)) <$> getBlocks this'))
    as ->.
  { unfold getBlockPalette, getBlocks. rewrite Hused, Hblocks, foldl_addUsed_nil.
    by rewrite <- list_fmap_compose. }
  split; [done|]. split.
  - apply NoDup_firstOccurrences.
  - intros n. apply elem_of_firstOccurrences.
Qed.

(** Under a mode that never replaces, the loop makes one call per voxel,
    on the collection of all blocks and the configured colour space. *)
Lemma passOutcome_no_replace w0 vs :
  (∀ f s, shouldReplace (fallable params) f s = false) →
  let pass := passOutcome params ap all nonF assigner fb vm w0 vs in
  (pass.1.*1, oracle pass.2)
  = candidates assigner ap (resolution params) (colourSpace params) all vs (oracle w0) ∧
  trace pass.2 = trace w0 ++ (assignEvent (colourSpace params) all <$> vs) ∧
  length (filter (fun r => r.2 = true) pass.1)
  = length (filter (falling fb vm) pass.1.*1).
Proof.
  intros Hno. revert w0. induction vs as [|v vs IH]; intros w0.
  - cbn. by rewrite app_nil_r.
  - cbn [passOutcome candidates]. unfold outcome, call_assignBlock.
    destruct (assigner (oracle w0) ap (colour v) (position v) (resolution params)
                (colourSpace params) all) as [cand o1].
    rewrite Hno.
    specialize (IH (mkWorld o1 (trace w0 ++ [assignEvent (colourSpace params) all v]))).
    cbn zeta in IH. destruct (passOutcome _ _ _ _ _ _ _ _ vs) as [rs w2].
    cbn [fst snd oracle trace fmap list_fmap] in *.
    destruct IH as (Hc & Ht & Hl).
    destruct (candidates assigner ap _ _ all vs o1) as [bs o2].
    injection Hc as <- <-. split; [done|]. split.
    + rewrite Ht, <- app_assoc. done.
    + assert (falling fb vm (mkBlock v cand)
              ↔ includes fb (BlockInfo_name cand)
                && negb (isVoxelAt vm (Vector3.add (position v) (Vector3.mk 0 (-1) 0)))
                = true) as Hfalling.
      { unfold falling. cbn [blockInfo voxel].
        rewrite andb_true_iff, negb_true_iff, includes_true. done. }
      destruct (includes fb (BlockInfo_name cand) && negb _).
      * rewrite (filter_cons_True (falling fb vm)) by by apply Hfalling.
        rewrite filter_cons_True by done. cbn [length]. by rewrite Hl.
      * rewrite (filter_cons_False (falling fb vm)) by (rewrite Hfalling; done).
        by rewrite filter_cons_False by done.
Qed.

(** C6: under 'do-nothing', when the atlas and the palette load, the
    assignment on a new block mesh returns; its blocks are the candidate
    blocks, one call of the assigner per voxel on the collection of all
    blocks and the configured colour space, and these calls are all the
    calls made; after them, one warning with the number of falling blocks
    is emitted when that number is not 0, and nothing when it is 0. *)
Theorem C6_do_nothing_never_replaces_warns_once :
  fallable params = do_nothing →
  Atlas_load (textureAtlas params) = Some atlas →
  Palette_load (blockPalette params) = Some palette →
  ∃ this' w',
    _assignBlocks (new_BlockMesh vm fb) params w = Ok (this', w') ∧
    (getBlocks this', oracle w')
    = candidates assigner ap (resolution params) (colourSpace params) all
        (getVoxels vm) (oracle w) ∧
    let count := Z.of_nat (length (filter (falling fb vm) (getBlocks this'))) in
    trace w'
    = trace w ++ (assignEvent (colourSpace params) all <$> getVoxels vm)
        ++ (if decide (count = 0) then []
            else [EvStatusAdd "warning" (fallingWarning count)]).
Proof.
  intros Hmode Hatlas Hpalette.
  destruct (assignBlocks_Ok (new_BlockMesh vm fb) params w atlas palette
              Hatlas Hpalette) as (this' & Hok & Hblocks & _ & _).
  cbn [new_BlockMesh _blocks _voxelMesh _fallableBlocks app] in *.
  destruct (passOutcome_no_replace w (getVoxels vm)) as (Hc & Ht & Hl).
  { intros f s. unfold shouldReplace. rewrite Hmode. by destruct f, s. }
  fold ap all nonF assigner in Hok, Hblocks.
  destruct (passOutcome params ap all nonF assigner fb vm w (getVoxels vm))
    as [rs w2].
  cbn [fst snd] in *. rewrite Hl in Hok.
  eexists this', _. split; [exact Hok|].
  unfold getBlocks. rewrite Hblocks.
  rewrite bool_decide_eq_true_2 by done. cbn [andb].
  set (count := Z.of_nat (length (filter (falling fb vm) rs.*1))).
  destruct (decide (count = 0)) as [Hzero|Hpos].
  - rewrite Hzero. cbn. by rewrite Hc, Ht, app_nil_r.
  - assert ((count >? 0) = true) as -> by (subst count; lia).
    cbn [StatusHandler_add oracle trace]. by rewrite Hc, Ht, app_assoc.
Qed.

(** C10: under 'replace-fallable', if the assigner always returns a block
    of the collection it is given, for the two collections of the pass,
    then no block of the resulting mesh has a fallable name. *)
Theorem C10_replace_fallable_leaves_no_fallable_block :
  fallable params = replace_fallable →
  Atlas_load (textureAtlas params) = Some atlas →
  Palette_load (blockPalette params) = Some palette →
  (∀ o c p r cs coll,
      coll ∈ [all; nonF] → (assigner o ap c p r cs coll).1 ∈ coll) →
  ∃ this' w',
    _assignBlocks (new_BlockMesh vm fb) params w = Ok (this', w') ∧
    ∀ b, b ∈ getBlocks this' → BlockInfo_name (blockInfo b) ∉ fb.
Proof.
  intros Hmode Hatlas Hpalette Hmember.
  destruct (assignBlocks_Ok (new_BlockMesh vm fb) params w atlas palette
              Hatlas Hpalette) as (this' & Hok & Hblocks & _ & _).
  cbn [new_BlockMesh _blocks _voxelMesh _fallableBlocks app] in *.
  eexists this', _. split; [exact Hok|].
  unfold getBlocks. rewrite Hblocks. fold ap all nonF assigner.
  generalize (getVoxels vm) as vs. generalize w as w0.
  intros w0 vs. revert w0. induction vs as [|v vs IH]; intros w0 b Hb.
  { by apply elem_of_nil in Hb. }
  cbn [passOutcome] in Hb. unfold outcome, call_assignBlock in Hb.
  destruct (assigner (oracle w0) ap (colour v) (position v) (resolution params)
              (colourSpace params) all) as [cand o1].
  unfold shouldReplace in Hb. rewrite Hmode in Hb.
  rewrite bool_decide_eq_true_2, bool_decide_eq_false_2 in Hb by done.
  cbn [andb oracle trace] in Hb. rewrite orb_false_r in Hb.
  destruct (includes fb (BlockInfo_name cand)) eqn:Hf.
  - pose proof (Hmember o1 (colour v) (position v) (resolution params)
                  ColourSpace_RGB nonF) as Hin.
    destruct (assigner o1 ap (colour v) (position v) (resolution params)
                ColourSpace_RGB nonF) as [block o2].
    specialize (IH (mkWorld o2
      ((trace w0 ++ [assignEvent (colourSpace params) all v])
         ++ [assignEvent ColourSpace_RGB nonF v]))).
    destruct (passOutcome _ _ _ _ _ _ _ _ vs) as [rs w2].
    cbn [fst snd fmap list_fmap] in *.
    apply elem_of_cons in Hb as [->|Hb]; [|by apply IH].
    cbn [blockInfo].
    assert (block ∈ nonF) as Hblock.
    { apply Hin. apply elem_of_cons; right. apply elem_of_cons; by left. }
    unfold nonF, createBlockCollection in Hblock.
    apply list_elem_of_filter in Hblock as [Hblock _].
    by apply includes_false.
  - specialize (IH (mkWorld o1 (trace w0 ++ [assignEvent (colourSpace params) all v]))).
    destruct (passOutcome _ _ _ _ _ _ _ _ vs) as [rs w2].
    cbn [fst snd fmap list_fmap] in *.
    apply elem_of_cons in Hb as [->|Hb]; [|by apply IH].
    cbn [blockInfo]. by apply includes_false.
Qed.

End AssignClaims.

Section ReplacementRule.
Context `{ExternalTypes} `{!Collaborators}.

(** One iteration of the loop: the block pushed is decided by the rule of
    the specification on the candidate the first call returned. *)
Lemma assignVoxel_replacement_rule
    (params : AssignParams_Input) (ap : AtlasPalette) (all nonF : list BlockInfo)
    (assigner : IBlockAssigner) (this this' : BlockMesh) (cf cf' : Z)
    (w w1 w' : World) (v : Voxel RGBA) (cand : BlockInfo) :
  call_assignBlock assigner ap (colour v) (position v) (resolution params)
    (colourSpace params) all w = (cand, w1) →
  assignVoxel params ap all nonF assigner (this, cf, w) v = (this', cf', w') →
  let isFallable := BlockInfo_name cand ∈ _fallableBlocks this in
  let isSupported :=
    isVoxelAt (_voxelMesh this) (Vector3.add (position v) (Vector3.mk 0 (-1) 0))
    = true in
  let first := EvAssignBlock ap (colour v) (position v) (resolution params)
                 (colourSpace params) all in
  let second := EvAssignBlock ap (colour v) (position v) (resolution params)
                  ColourSpace_RGB nonF in
  ∃ block,
    _blocks this' = _blocks this ++ [mkBlock v block] ∧
    (spec_replaced (fallable params) isFallable isSupported →
     call_assignBlock assigner ap (colour v) (position v) (resolution params)
       ColourSpace_RGB nonF w1 = (block, w')
     ∧ trace w' = trace w ++ [first; second]) ∧
    (¬ spec_replaced (fallable params) isFallable isSupported →
     block = cand ∧ w' = w1 ∧ trace w' = trace w ++ [first]) ∧
    (fallable params = replace_fallable → isFallable →
     spec_replaced (fallable params) isFallable isSupported).
Proof.
  intros Hcall Hbody isFallable isSupported first second.
  assert (trace w1 = trace w ++ [first]) as Htr1.
  { unfold call_assignBlock in Hcall. destruct (assigner _ _ _ _ _ _ _).
    by injection Hcall as _ <-. }
  unfold assignVoxel in Hbody. rewrite Hcall in Hbody.
  pose proof (shouldReplace_spec (fallable params)
    (includes (_fallableBlocks this) (BlockInfo_name cand))
    (isVoxelAt (_voxelMesh this) (Vector3.add (position v) (Vector3.mk 0 (-1) 0))))
    as Hspec.
  unfold spec_replaced in Hspec. rewrite includes_true in Hspec.
  fold isFallable isSupported in Hspec.
  fold (spec_replaced (fallable params) isFallable isSupported) in Hspec.
  destruct (shouldReplace _ _ _).
  - destruct (call_assignBlock assigner ap (colour v) (position v)
                (resolution params) ColourSpace_RGB nonF w1) as [block w2] eqn:Hcall2.
    assert (trace w2 = trace w1 ++ [second]) as Htr2.
    { unfold call_assignBlock in Hcall2. destruct (assigner _ _ _ _ _ _ _).
      by injection Hcall2 as _ <-. }
    exists block. injection Hbody as <- _ <-. split; [|split; [|split]].
    + by destruct (negb _).
    + intros _. split; [done|]. by rewrite Htr2, Htr1, <- app_assoc.
    + intros Hno. destruct Hno. by apply Hspec.
    + intros. by apply Hspec.
  - exists cand. injection Hbody as <- _ <-. split; [|split; [|split]].
    + by destruct (negb _).
    + intros Hyes. apply Hspec in Hyes. done.
    + done.
    + intros Hmode Hf. left. done.
Qed.

End ReplacementRule.

Section ReplacementRuleInThePass.
Context `{ExternalTypes} `{!Collaborators}.

Variable vm : VoxelMesh RGBA.
Variable fb : list string.
Variable params : AssignParams_Input.
Variable atlas : Atlas.
Variable palette : Palette.

Let ap := mkAtlasPalette atlas palette.
Let all := createBlockCollection ap [].
Let nonF := createBlockCollection ap fb.
Let assigner := GetAssigner (blockAssigner params).

(** The loop of the code does, voxel by voxel, what the specification's
    pass does. *)
Lemma passOutcome_spec_assign w0 vs :
  ((passOutcome params ap all nonF assigner fb vm w0 vs).1.*1,
   (passOutcome params ap all nonF assigner fb vm w0 vs).2)
  = spec_assign (fallable params) assigner ap (resolution params)
      (colourSpace params) all nonF fb vm vs w0.
Proof.
  revert w0. induction vs as [|v vs IH]; intros w0; [done|].
  cbn [passOutcome spec_assign]. unfold outcome.
  destruct (call_assignBlock assigner ap (colour v) (position v) (resolution params)
              (colourSpace params) all w0) as [cand w1].
  pose proof (shouldReplace_spec (fallable params)
    (includes fb (BlockInfo_name cand))
    (isVoxelAt vm (Vector3.add (position v) (Vector3.mk 0 (-1) 0)))) as Hspec.
  unfold spec_replaced in Hspec. rewrite includes_true in Hspec.
  fold (spec_replaced (fallable params) (BlockInfo_name cand ∈ fb)
          (isVoxelAt vm (Vector3.add (position v) (Vector3.mk 0 (-1) 0)) = true))
    in Hspec.
  destruct (shouldReplace _ _ _).
  - rewrite decide_True by (by apply Hspec).
    destruct (call_assignBlock assigner ap (colour v) (position v) (resolution params)
                ColourSpace_RGB nonF w1) as [block w2].
    specialize (IH w2). destruct (passOutcome _ _ _ _ _ _ _ w2 vs) as [rs w3].
    destruct (spec_assign _ _ _ _ _ _ _ _ _ vs w2) as [bs w4].
    cbn [fst snd fmap list_fmap] in *. by injection IH as -> ->.
  - rewrite decide_False by (intros Hyes; by apply Hspec in Hyes).
    specialize (IH w1). destruct (passOutcome _ _ _ _ _ _ _ w1 vs) as [rs w3].
    destruct (spec_assign _ _ _ _ _ _ _ _ _ vs w1) as [bs w4].
    cbn [fst snd fmap list_fmap] in *. by injection IH as -> ->.
Qed.

(** C2: when the atlas and the palette load, the assignment on a new block
    mesh does for every voxel of the voxel mesh, in order, what the
    specification says, with the configured mode: the candidate comes from
    a call of the assigner on the collection of all blocks in the
    configured colour space, and it is replaced if and only if (the mode is
    'replace-fallable' and the candidate's name is a fallable name) or (the
    mode is 'replace-falling', the candidate's name is a fallable name and
    no voxel is directly below); when it is replaced, the block is the one
    a second call of the assigner returns, on the collection built to
    exclude the fallable names of the mesh and in RGB whatever the
    configured colour space is; when it is not, the block is the candidate
    and no second call is made.  The blocks of the mesh are these blocks,
    the calls of the pass are these calls, followed at most by the warning
    of 'do-nothing'.  Under 'replace-fallable' a fallable candidate is
    replaced whether or not a voxel is below it. *)
Theorem C2_replacement_rule_in_the_pass (w : World) :
  Atlas_load (textureAtlas params) = Some atlas →
  Palette_load (blockPalette params) = Some palette →
  let pass :=
    spec_assign (fallable params) (GetAssigner (blockAssigner params))
      (mkAtlasPalette atlas palette) (resolution params) (colourSpace params)
      (createBlockCollection (mkAtlasPalette atlas palette) [])
      (createBlockCollection (mkAtlasPalette atlas palette) fb)
      fb vm (getVoxels vm) w in
  ∃ this' w' messages,
    _assignBlocks (new_BlockMesh vm fb) params w = Ok (this', w') ∧
    getBlocks this' = pass.1 ∧
    oracle w' = oracle pass.2 ∧
    trace w' = trace pass.2 ++ messages ∧
    (messages = []
     ∨ fallable params = do_nothing ∧ ∃ m, messages = [EvStatusAdd "warning" m]) ∧
    (fallable params = replace_fallable →
     ∀ isFallable isSupported : Prop,
       isFallable → spec_replaced (fallable params) isFallable isSupported).
Proof.
  intros Hatlas Hpalette pass.
  destruct (assignBlocks_Ok (new_BlockMesh vm fb) params w atlas palette
              Hatlas Hpalette) as (this' & Hok & Hblocks & _).
  cbn [new_BlockMesh _blocks _voxelMesh _fallableBlocks app] in *.
  fold ap all nonF assigner in Hok, Hblocks.
  assert (Hpass :
    ((passOutcome params ap all nonF assigner fb vm w (getVoxels vm)).1.*1,
     (passOutcome params ap all nonF assigner fb vm w (getVoxels vm)).2) = pass)
    by exact (passOutcome_spec_assign w (getVoxels vm)).
  destruct (passOutcome params ap all nonF assigner fb vm w (getVoxels vm))
    as [rs w2]. cbn [fst snd] in *.
  assert (getBlocks this' = pass.1) as Hb.
  { unfold getBlocks. rewrite Hblocks, <- Hpass. done. }
  assert (w2 = pass.2) as Hw by (by rewrite <- Hpass).
  assert (∀ (isFallable isSupported : Prop),
            fallable params = replace_fallable → isFallable →
            spec_replaced (fallable params) isFallable isSupported) as Hrf.
  { intros ?? Hm Hf. left. done. }
  destruct (bool_decide (fallable params = do_nothing)) eqn:Hmode;
    [apply bool_decide_eq_true in Hmode|]; cbn [andb] in Hok.
  - destruct (_ >? 0).
    + eexists this', _, [_]. split; [exact Hok|].
      cbn [StatusHandler_add oracle trace]. rewrite Hw.
      split; [done|]. split; [done|]. split; [done|]. split; [right; eauto|].
      intros Hm ???. by apply Hrf.
    + eexists this', _, []. split; [exact Hok|]. rewrite app_nil_r, Hw.
      split; [done|]. split; [done|]. split; [done|]. split; [by left|].
      intros Hm ???. by apply Hrf.
  - eexists this', _, []. split; [exact Hok|]. rewrite app_nil_r, Hw.
    split; [done|]. split; [done|]. split; [done|]. split; [by left|].
    intros Hm ???. by apply Hrf.
Qed.

End ReplacementRuleInThePass.

(** ** The chunked buffer cache *)

Section ChunkCache.
Context `{ExternalTypes} `{!Collaborators}.

(** A request for a stored index changes nothing and calls nothing. *)
Lemma getChunkedBuffer_cached this k w c :
  _bufferChunks this !! k = Some c →
  getChunkedBuffer this k w = (Some c, this, w).
Proof. intros Hk. unfold getChunkedBuffer. by rewrite Hk. Qed.

(** A request for an index that is not stored calls the generator once
    and stores what it returns. *)
Lemma getChunkedBuffer_fresh this k w :
  _bufferChunks this !! k = None →
  let '(c, o) := fromBlockMesh (oracle w) this k in
  getChunkedBuffer this k w
  = (Some c, set_bufferChunk this k c,
     mkWorld o (trace w ++ [EvFromBlockMesh k])).
Proof.
  intros Hk. unfold getChunkedBuffer, call_fromBlockMesh. rewrite Hk.
  destruct (fromBlockMesh (oracle w) this k) as [c o].
  cbn [set_bufferChunk _bufferChunks]. by rewrite lookup_insert_eq.
Qed.

Lemma generated_cons k (evs : list Event) :
  generated (EvFromBlockMesh k :: evs) = k :: generated evs.
Proof. reflexivity. Qed.

(** C9: over any sequence of requests on one aggregate, the calls made
    are calls of the buffer generator only, no chunk index is generated
    twice, an index that was stored before the sequence is not generated
    at all, what was stored stays stored, and every request for an index
    returns the chunk that is stored at this index when the sequence
    ends, so that two requests for one index return the same chunk. *)
Theorem C9_chunks_generated_at_most_once
    (ks : list Z) (this this' : BlockMesh) (w w' : World)
    (rs : list (option ChunkBuffer)) :
  getChunkedBuffers ks this w = (rs, this', w') →
  ∃ evs,
    trace w' = trace w ++ evs ∧
    evs = EvFromBlockMesh <$> generated evs ∧
    NoDup (generated evs) ∧
    (∀ k, is_Some (_bufferChunks this !! k) → k ∉ generated evs) ∧
    (∀ k c, _bufferChunks this !! k = Some c → _bufferChunks this' !! k = Some c) ∧
    length rs = length ks ∧
    (∀ i k, ks !! i = Some k →
       ∃ c, rs !! i = Some (Some c) ∧ _bufferChunks this' !! k = Some c) ∧
    (∀ i j k, ks !! i = Some k → ks !! j = Some k → rs !! i = rs !! j).
Proof.
  intros Hrun.
  cut (∃ evs,
    trace w' = trace w ++ evs ∧
    evs = EvFromBlockMesh <$> generated evs ∧
    NoDup (generated evs) ∧
    (∀ k, is_Some (_bufferChunks this !! k) → k ∉ generated evs) ∧
    (∀ k c, _bufferChunks this !! k = Some c → _bufferChunks this' !! k = Some c) ∧
    length rs = length ks ∧
    (∀ i k, ks !! i = Some k →
       ∃ c, rs !! i = Some (Some c) ∧ _bufferChunks this' !! k = Some c)).
  { intros (evs & Ht & He & Hnd & Hold & Hkeep & Hlen & Hres).
    exists evs. repeat (split; [done|]). intros i j k Hi Hj.
    destruct (Hres i k Hi) as (c & -> & Hc).
    destruct (Hres j k Hj) as (c' & -> & Hc'). congruence. }
  revert this w rs this' w' Hrun.
  induction ks as [|k ks IH]; intros this w rs this' w' Hrun.
  - injection Hrun as <- <- <-. exists []. rewrite app_nil_r.
    repeat (split; [done || constructor|]). split.
    + intros k _. apply not_elem_of_nil.
    + split; [done|]. split; [done|]. intros i k Hi. done.
  - cbn [getChunkedBuffers] in Hrun.
    destruct (getChunkedBuffer this k w) as [[r this1] w1] eqn:Hone.
    destruct (getChunkedBuffers ks this1 w1) as [[rs1 this2] w2] eqn:Hrest.
    injection Hrun as <- <- <-.
    destruct (IH _ _ _ _ _ Hrest) as (evs & Ht & He & Hnd & Hold & Hkeep & Hlen & Hres).
    destruct (_bufferChunks this !! k) as [c|] eqn:Hk.
    + rewrite (getChunkedBuffer_cached this k w c Hk) in Hone.
      injection Hone as <- <- <-.
      exists evs. repeat (split; [done|]). split; [cbn; by rewrite Hlen|].
      intros [|i] k' Hi; cbn in Hi.
      * injection Hi as <-. exists c. split; [done|]. by apply Hkeep.
      * by apply Hres.
    + pose proof (getChunkedBuffer_fresh this k w Hk) as Hfresh.
      destruct (fromBlockMesh (oracle w) this k) as [c o].
      rewrite Hfresh in Hone. injection Hone as <- <- <-.
      cbn [set_bufferChunk _bufferChunks trace] in *.
      exists (EvFromBlockMesh k :: evs).
      assert (k ∉ generated evs) as Hnotin.
      { apply Hold. rewrite lookup_insert_eq. eauto. }
      split; [by rewrite Ht, <- app_assoc|].
      rewrite generated_cons.
      split; [rewrite fmap_cons; by f_equal|].
      split; [by apply NoDup_cons|].
      split.
      { intros k' Hk'. apply not_elem_of_cons. split.
        - intros ->. rewrite Hk in Hk'. by destruct Hk'.
        - apply Hold. destruct (decide (k = k')) as [->|Hne].
          + rewrite lookup_insert_eq. eauto.
          + by rewrite lookup_insert_ne. }
      split.
      { intros k' c' Hk'. apply Hkeep. rewrite lookup_insert_ne; [done|].
        intros ->. congruence. }
      split; [cbn; by rewrite Hlen|].
      intros [|i] k' Hi; cbn in Hi.
      * injection Hi as <-. exists c. split; [done|].
        apply Hkeep. apply lookup_insert_eq.
      * by apply Hres.
Qed.

End ChunkCache.

(** ** The scenarios of the specification, on sand and stone *)

Module ScenarioExamples.
Import Scenario.

#[local] Existing Instance types.
#[local] Existing Instance collaborators.

(** Two voxels in, two blocks out, the second on the sand voxel. *)
Lemma C1_witness :
  ∃ this' w',
    _assignBlocks (new_BlockMesh supportedSandMesh fallable_blocks)
      (params do_nothing) world0 = Ok (this', w') ∧
    length (getBlocks this') = 2%nat ∧
    voxel <$> (getBlocks this' !! 1%nat) = Some sand.
Proof.
  destruct (C1_one_block_per_voxel_in_order supportedSandMesh fallable_blocks
              (params do_nothing) world0 atlas0 palette0)
    as (this' & w' & Hok & Hlen & Hnth); [reflexivity|reflexivity|].
  exists this', w'. split; [exact Hok|]. split; [exact Hlen|]. exact (Hnth 1%nat).
Defined.

(** Scenario C: a sand-coloured voxel resting on a stone-coloured one,
    under 'replace-fallable': the stone voxel keeps its candidate after one
    call, the supported sand voxel is replaced, by a second call on the
    non-fallable collection in RGB. *)
Lemma C2_witness :
  ∃ this' w',
    _assignBlocks (new_BlockMesh supportedSandMesh fallable_blocks)
      (params replace_fallable) world0 = Ok (this', w') ∧
    getBlocks this' = [mkBlock stoneBelow "stone"; mkBlock sand "stone"] ∧
    trace w' = [EvAssignBlock ap "stone" (Vector3.mk 0 (-1) 0) 1 DemoLAB all;
                EvAssignBlock ap "sand" origin 1 DemoLAB all;
                EvAssignBlock ap "sand" origin 1 DemoRGB nonF].
Proof.
  destruct (C2_replacement_rule_in_the_pass supportedSandMesh fallable_blocks
              (params replace_fallable) atlas0 palette0 world0)
    as (this' & w' & messages & Hok & Hblocks & _ & Htrace & Hmessages & _);
    [reflexivity|reflexivity|].
  exists this', w'. split; [exact Hok|]. split; [exact Hblocks|].
  destruct Hmessages as [->|[Hmode _]]; [|discriminate Hmode].
  rewrite app_nil_r in Htrace. exact Htrace.
Defined.

(** Scenario B: one unsupported sand-coloured voxel under 'do-nothing'
    stays sand, and one warning cites one falling block. *)
Lemma C6_witness :
  ∃ this' w',
    _assignBlocks (new_BlockMesh sandMesh fallable_blocks)
      (params do_nothing) world0 = Ok (this', w') ∧
    getBlocks this' = [mkBlock sand "sand"] ∧
    trace w' = [EvAssignBlock ap "sand" origin 1 DemoLAB all;
                EvStatusAdd "warning"
                  "1 blocks will fall under gravity when this structure is placed"].
Proof.
  destruct (C6_do_nothing_never_replaces_warns_once sandMesh fallable_blocks
              (params do_nothing) world0 atlas0 palette0)
    as (this' & w' & Hok & Hcand & Htrace); [reflexivity|reflexivity|reflexivity|].
  exists this', w'. split; [exact Hok|].
  assert (getBlocks this' = [mkBlock sand "sand"]) as Hblocks.
  { apply (f_equal fst) in Hcand. exact Hcand. }
  split; [exact Hblocks|].
  rewrite Hblocks in Htrace. exact Htrace.
Defined.

(** Stone, then sand: the used names in this order. *)
Lemma C8_witness :
  ∃ this' w',
    _assignBlocks (new_BlockMesh supportedSandMesh fallable_blocks)
      (params do_nothing) world0 = Ok (this', w') ∧
    NoDup (getBlockPalette this') ∧
    ("sand" ∈ getBlockPalette this'
     ↔ "sand" ∈ (fun b => BlockInfo_name (blockInfo b)) <$> getBlocks this').
Proof.
  destruct (C8_used_names_first_occurrence_order supportedSandMesh fallable_blocks
              (params do_nothing) world0 atlas0 palette0)
    as (this' & w' & Hok & _ & Hnodup & Hmem); [reflexivity|reflexivity|].
  exists this', w'. split; [exact Hok|]. split; [exact Hnodup|]. exact (Hmem "sand").
Defined.

Lemma nearest_in_collection o c p r cs (coll : list BlockInfo) :
  coll ∈ [all; nonF] → (nearest o ap c p r cs coll).1 ∈ coll.
Proof.
  intros Hcoll. unfold nearest. cbn [fst].
  destruct (bool_decide (c ∈ coll)) eqn:Hc.
  - by apply bool_decide_eq_true in Hc.
  - apply elem_of_cons in Hcoll as [->|Hcoll].
    + cbn. apply elem_of_cons; by left.
    + apply list_elem_of_singleton in Hcoll as ->.
      cbn. apply elem_of_cons; by left.
Qed.

(** Sand on stone under 'replace-fallable': no block is named sand. *)
Lemma C10_witness :
  ∃ this' w',
    _assignBlocks (new_BlockMesh supportedSandMesh fallable_blocks)
      (params replace_fallable) world0 = Ok (this', w') ∧
    ∀ b, b ∈ getBlocks this' → BlockInfo_name (blockInfo b) ∉ fallable_blocks.
Proof.
  apply (C10_replace_fallable_leaves_no_fallable_block supportedSandMesh
           fallable_blocks (params replace_fallable) world0 atlas0 palette0);
    [reflexivity|reflexivity|reflexivity|].
  intros o c p r cs coll. apply nearest_in_collection.
Defined.

(** Chunk 2, chunk 0, chunk 2 again: two calls of the generator, and the
    same chunk for both requests of chunk 2. *)
Lemma C9_witness :
  ∃ rs this' w',
    getChunkedBuffers [2; 0; 2] (new_BlockMesh sandMesh fallable_blocks) world0
    = (rs, this', w') ∧
    NoDup (generated (trace w')) ∧
    rs !! 0%nat = rs !! 2%nat.
Proof.
  destruct (getChunkedBuffers [2; 0; 2] (new_BlockMesh sandMesh fallable_blocks) world0)
    as [[rs this'] w'] eqn:Hrun.
  exists rs, this', w'. split; [reflexivity|].
  destruct (C9_chunks_generated_at_most_once _ _ _ _ _ _ Hrun)
    as (evs & Htrace & _ & Hnodup & _ & _ & _ & _ & Hsame).
  split.
  - rewrite Htrace. exact Hnodup.
  - exact (Hsame 0%nat 2%nat 2 eq_refl eq_refl).
Defined.

End ScenarioExamples.

(** ** The converged lighting field *)

Module LightingConvergence.
Import Lighting LightingFacts.

#[local] Arguments successors : simpl never.

Lemma elem_of_directions d :
  d ∈ directions ↔
  d = Vector3.mk 1 0 0 ∨ d = Vector3.mk (-1) 0 0 ∨ d = Vector3.mk 0 1 0
  ∨ d = Vector3.mk 0 (-1) 0 ∨ d = Vector3.mk 0 0 1 ∨ d = Vector3.mk 0 0 (-1).
Proof.
  unfold directions. rewrite !elem_of_cons, elem_of_nil. tauto.
Qed.

Lemma elem_of_successors p v a :
  a ∈ successors p v ↔
  a = mkAction (Vector3.add (Vector3.mk 0 (-1) 0) p) (if v =? 15 then 15 else v - 1)
  ∨ a = mkAction (Vector3.add (Vector3.mk 0 0 (-1)) p) (v - 1)
  ∨ a = mkAction (Vector3.add (Vector3.mk (-1) 0 0) p) (v - 1)
  ∨ a = mkAction (Vector3.add (Vector3.mk 0 0 1) p) (v - 1)
  ∨ a = mkAction (Vector3.add (Vector3.mk 1 0 0) p) (v - 1)
  ∨ a = mkAction (Vector3.add (Vector3.mk 0 1 0) p) (v - 1).
Proof.
  unfold successors. rewrite !elem_of_cons, elem_of_nil. tauto.
Qed.

Lemma add_add_opp d p :
  Vector3.add (Vector3.mk (- Vector3.x d) (- Vector3.y d) (- Vector3.z d))
    (Vector3.add d p) = p.
Proof. destruct d, p; unfold Vector3.add; simpl. f_equal; lia. Qed.

Lemma adjacent_sym p q : adjacent p q → adjacent q p.
Proof.
  intros (d & Hd & ->).
  exists (Vector3.mk (- Vector3.x d) (- Vector3.y d) (- Vector3.z d)).
  split; [|by rewrite add_add_opp].
  apply elem_of_directions in Hd. apply elem_of_directions.
  destruct Hd as [-> | [-> | [-> | [-> | [-> | ->]]]]]; simpl; tauto.
Qed.

(** The successors of a cell go to its six neighbours, with at least one
    less than its light. *)
Lemma successors_adjacent p v a :
  a ∈ successors p v → adjacent p (pos a) ∧ v - 1 ≤ value a.
Proof.
  intros Ha. apply elem_of_successors in Ha.
  destruct Ha as [-> | [-> | [-> | [-> | [-> | ->]]]]]; cbn [pos value];
    (split; [eexists; split; [|reflexivity]; apply elem_of_directions; tauto|]);
    try lia.
  destruct (v =? 15) eqn:Hv; lia.
Qed.

Lemma adjacent_successor p q v :
  adjacent p q → ∃ a, a ∈ successors p v ∧ pos a = q ∧ v - 1 ≤ value a.
Proof.
  intros (d & Hd & ->). apply elem_of_directions in Hd.
  destruct (decide (d = Vector3.mk 0 (-1) 0)) as [->|Hside].
  - exists (mkAction (Vector3.add (Vector3.mk 0 (-1) 0) p)
              (if v =? 15 then 15 else v - 1)).
    split; [apply elem_of_successors; tauto|]. split; [done|].
    cbn [value]. destruct (v =? 15) eqn:Hv; lia.
  - exists (mkAction (Vector3.add d p) (v - 1)).
    split; [|split; [done|cbn [value]; lia]].
    apply elem_of_successors.
    destruct Hd as [-> | [-> | [-> | [-> | [-> | ->]]]]]; tauto.
Qed.

Section WithMesh.
Context {RGBA : Type}.
Variable vm : VoxelMesh RGBA.

(** An iteration never lowers a stored value and never adds or removes a
    key. *)
Lemma step_mono st st' k v :
  step vm st = Some st' → lighting st !! k = Some v →
  ∃ v', lighting st' !! k = Some v' ∧ v ≤ v'.
Proof.
  intros Hstep Hk.
  apply step_cases in Hstep as (a & rest & _ & [[-> _]|Hupd]).
  - exists v. simpl. split; [done|lia].
  - destruct Hupd as (cur & Hcur & Hlt & _ & ->). simpl.
    destruct (decide (Vector3.stringify (pos a) = k)) as [<-|Hne].
    + rewrite lookup_insert_eq. exists (value a). split; [done|].
      rewrite Hcur in Hk. injection Hk as <-. lia.
    + rewrite lookup_insert_ne by done. exists v. split; [done|lia].
Qed.

Lemma settled_insert L a k cur new :
  L !! k = Some cur → cur < new → settled vm L a → settled vm (<[k := new]> L) a.
Proof.
  unfold settled. intros Hk Hlt Hs.
  destruct (decide (k = Vector3.stringify (pos a))) as [->|Hne].
  - rewrite lookup_insert_eq. rewrite Hk in Hs. destruct Hs; [left; lia|by right].
  - by rewrite lookup_insert_ne.
Qed.

Lemma initialState_relaxed : relaxed vm (initialState vm).
Proof.
  intros p v Hp Hv. simpl in Hp. apply initialLighting_value in Hp. lia.
Qed.

Lemma step_relaxed st st' :
  relaxed vm st → step vm st = Some st' → relaxed vm st'.
Proof.
  intros Hrel Hstep.
  apply step_cases in Hstep as (a0 & rest & Hact & [[-> Hwhy]|Hupd]).
  - intros p v Hp Hv a Ha. cbn [lighting actions] in *.
    destruct (Hrel p v Hp Hv a Ha) as [Hin|Hs]; [|by right].
    rewrite Hact in Hin. apply elem_of_cons in Hin as [->|Hin]; [|by left].
    right. unfold settled.
    destruct Hwhy as [Hnone|(cur & Hsome & Hcur)].
    + by rewrite Hnone.
    + by rewrite Hsome.
  - destruct Hupd as (cur & Hcur & Hlt & Hocc & ->).
    intros p v Hp Hv a Ha. cbn [lighting actions] in *.
    destruct (decide (Vector3.stringify (pos a0) = Vector3.stringify p)) as [Heq|Hne].
    + rewrite Heq, lookup_insert_eq in Hp. injection Hp as <-.
      apply Vector3Facts.stringify_inj in Heq as <-.
      left. apply elem_of_app. by left.
    + rewrite lookup_insert_ne in Hp by done.
      destruct (Hrel p v Hp Hv a Ha) as [Hin|Hs].
      * rewrite Hact in Hin. apply elem_of_cons in Hin as [->|Hin].
        -- right. unfold settled. rewrite lookup_insert_eq. left. lia.
        -- left. apply elem_of_app. by right.
      * right. by eapply settled_insert.
Qed.

Lemma reachable_relaxed st : reachable vm st → relaxed vm st.
Proof.
  induction 1 as [|st st' _ IH Hstep].
  - apply initialState_relaxed.
  - by eapply step_relaxed.
Qed.

Lemma lit_from_insert L p v k cur new :
  L !! k = Some cur → cur < new → new ≤ 15 →
  lit_from vm L p v → lit_from vm (<[k := new]> L) p v.
Proof.
  intros Hk Hlt Hle [[-> Hsun]|(q & w & Hadj & Hq & Hw)].
  - left. split; [done|]. destruct Hsun as [Htop|Hup]; [by left|right].
    destruct (decide (k = Vector3.stringify (Vector3.add (Vector3.mk 0 1 0) p)))
      as [->|Hne].
    + rewrite Hk in Hup. injection Hup as ->. lia.
    + by rewrite lookup_insert_ne.
  - right. exists q. destruct (decide (k = Vector3.stringify q)) as [->|Hne].
    + exists new. rewrite lookup_insert_eq. split; [done|]. split; [done|].
      rewrite Hk in Hq. injection Hq as ->. lia.
    + exists w. by rewrite lookup_insert_ne.
Qed.

Lemma initialState_sourced : sourced vm (initialState vm).
Proof.
  split.
  - intros p v Hp Hv. simpl in Hp. apply initialLighting_value in Hp. lia.
  - intros a Ha _. simpl in Ha. apply elem_of_reverse, elem_of_emitters in Ha.
    left. destruct Ha as (-> & -> & _). auto.
Qed.

Lemma step_sourced st st' :
  LightingInv vm st → sourced vm st → step vm st = Some st' → sourced vm st'.
Proof.
  intros Hinv [Hstored Hpending] Hstep.
  apply step_cases in Hstep as (a0 & rest & Hact & [[-> _]|Hupd]).
  - split; [done|]. intros a Ha. cbn [lighting actions] in *.
    apply Hpending. rewrite Hact. apply elem_of_cons. by right.
  - destruct Hupd as (cur & Hcur & Hlt & Hocc & ->).
    assert (value a0 ≤ 15) as Hle.
    { apply (inv_actions vm st Hinv). rewrite Hact. apply elem_of_cons. by left. }
    pose proof (inv_bounded vm st Hinv _ _ Hcur) as Hcb.
    split; cbn [lighting actions].
    + intros p v Hp Hv.
      destruct (decide (Vector3.stringify (pos a0) = Vector3.stringify p)) as [Heq|Hne].
      * rewrite Heq, lookup_insert_eq in Hp. injection Hp as <-.
        apply Vector3Facts.stringify_inj in Heq as <-.
        eapply lit_from_insert; try done.
        apply Hpending; [|lia]. rewrite Hact. apply elem_of_cons. by left.
      * rewrite lookup_insert_ne in Hp by done.
        eapply lit_from_insert; try done. by apply Hstored.
    + intros a Ha Hv. apply elem_of_app in Ha as [Ha|Ha].
      * destruct (decide (value a0 = 15 ∧ a = mkAction
            (Vector3.add (Vector3.mk 0 (-1) 0) (pos a0)) 15)) as [[H15 ->]|Hnot].
        -- left. split; [done|]. right. cbn [pos].
           replace (Vector3.add (Vector3.mk 0 1 0)
                      (Vector3.add (Vector3.mk 0 (-1) 0) (pos a0))) with (pos a0)
             by (destruct (pos a0); unfold Vector3.add; simpl; f_equal; lia).
           rewrite lookup_insert_eq. by rewrite H15.
        -- right. exists (pos a0), (value a0).
           destruct (successors_adjacent _ _ _ Ha) as [Hadj Hval].
           split; [by apply adjacent_sym|]. rewrite lookup_insert_eq.
           split; [done|].
           apply elem_of_successors in Ha.
           destruct Ha as [-> | [-> | [-> | [-> | [-> | ->]]]]]; cbn [value] in *; try lia.
           destruct (value a0 =? 15) eqn:H15; [|lia].
           apply Z.eqb_eq in H15. destruct Hnot. by rewrite H15.
      * eapply lit_from_insert; try done.
        apply Hpending; [|done]. rewrite Hact. apply elem_of_cons. by right.
Qed.

Lemma reachable_sourced st : reachable vm st → sourced vm st.
Proof.
  induction 1 as [|st st' Hr IH Hstep].
  - apply initialState_sourced.
  - eapply step_sourced; [by apply reachable_inv|done|done].
Qed.

(** The final state of the run, with all that holds of it. *)
Lemma final_state L :
  calculateLighting vm = Some L →
  ∃ st, lighting st = L ∧ actions st = [] ∧ reachable vm st.
Proof.
  intros HL. destruct (calculateLighting_total vm) as (st & Hst & Hact & Hr).
  rewrite HL in Hst. injection Hst as ->. by exists st.
Qed.

(** The run is one path: every state it goes through leads to its end. *)
Lemma reachable_to_final st fin :
  reachable vm st → reachable vm fin → actions fin = [] →
  rtc (fun s s' => step vm s = Some s') st fin.
Proof.
  intros Hst Hfin Hact.
  assert (rtc (fun s s' => step vm s = Some s') (initialState vm) fin) as Hpath.
  { clear Hst Hact. induction Hfin as [|s s' Hr IH Hstep]; [constructor|].
    eapply rtc_r; [apply IH|done]. }
  induction Hst as [|s s' Hr IH Hstep]; [done|].
  inversion IH as [|? s'' ? Hstep' Hrest]; subst.
  - apply (step_None vm) in Hact. congruence.
  - rewrite Hstep in Hstep'. by injection Hstep' as <-.
Qed.

Lemma rtc_mono st st' k v :
  rtc (fun s s' => step vm s = Some s') st st' →
  lighting st !! k = Some v →
  ∃ v', lighting st' !! k = Some v' ∧ v ≤ v'.
Proof.
  intros Hrtc. revert v. induction Hrtc as [|s1 s2 s3 Hstep _ IH]; intros v Hk.
  - exists v. split; [done|lia].
  - destruct (step_mono _ _ _ _ Hstep Hk) as (v1 & Hk1 & Hle1).
    destruct (IH _ Hk1) as (v2 & Hk2 & Hle2). exists v2. split; [done|lia].
Qed.

Lemma final_lookup_tracked L p :
  calculateLighting vm = Some L →
  is_Some (L !! Vector3.stringify p) ↔ tracked (getBounds vm) p.
Proof.
  intros HL. destruct (final_state L HL) as (st & <- & _ & Hr).
  apply reachable_inv in Hr. rewrite (inv_dom vm st Hr), initialLighting_lookup.
  case_decide; split; try done; first [by eauto | by intros [? ?]].
Qed.

(** X1: when the propagation has ended, the lighting field holds a value
    exactly at the coordinates of the bounds grown by one cell on every
    axis, and at no other key. *)
Theorem lighting_field_covers_expanded_bounds L :
  calculateLighting vm = Some L →
  (∀ p, is_Some (L !! Vector3.stringify p) ↔ tracked (getBounds vm) p) ∧
  (∀ x y z, is_Some (L !! (x, y, z)) ↔ tracked (getBounds vm) (Vector3.mk x y z)).
Proof.
  intros HL. split.
  - intros p. by apply final_lookup_tracked.
  - intros x y z. by apply (final_lookup_tracked L (Vector3.mk x y z)).
Qed.

(** X2: the propagation never lowers a stored value: the value the field
    ends with at a key is at least the value any state of the run holds
    there. *)
Theorem lighting_never_decreases L st k v :
  calculateLighting vm = Some L →
  reachable vm st →
  lighting st !! k = Some v →
  ∃ v', L !! k = Some v' ∧ v ≤ v'.
Proof.
  intros HL Hr Hk. destruct (final_state L HL) as (fin & <- & Hact & Hfin).
  eapply rtc_mono; [|done]. by apply reachable_to_final.
Qed.

Lemma final_relaxed L p v a :
  calculateLighting vm = Some L →
  L !! Vector3.stringify p = Some v → 0 < v → a ∈ successors p v →
  settled vm L a.
Proof.
  intros HL Hp Hv Ha. destruct (final_state L HL) as (st & <- & Hact & Hr).
  destruct (reachable_relaxed st Hr p v Hp Hv a Ha) as [Hin|Hs]; [|done].
  rewrite Hact in Hin. by apply elem_of_nil in Hin.
Qed.

Lemma final_bounded L k v :
  calculateLighting vm = Some L → L !! k = Some v → 0 ≤ v ≤ 15.
Proof.
  intros HL Hk. destruct (final_state L HL) as (st & <- & _ & Hr).
  apply reachable_inv in Hr. by apply (inv_bounded vm st Hr k).
Qed.

Lemma final_opaque L p v :
  calculateLighting vm = Some L → isVoxelAt vm p = true →
  L !! Vector3.stringify p = Some v → v = 0.
Proof.
  intros HL Hocc Hp. destruct (final_state L HL) as (st & <- & _ & Hr).
  apply reachable_inv in Hr. by apply (inv_opaque vm st Hr p).
Qed.

(** Light flows to an open neighbour with a loss of at most one. *)
Lemma final_flow L p q v u :
  calculateLighting vm = Some L → adjacent p q →
  L !! Vector3.stringify p = Some v → L !! Vector3.stringify q = Some u →
  isVoxelAt vm q = false → v - 1 ≤ u.
Proof.
  intros HL Hadj Hp Hq Hocc.
  destruct (decide (0 < v)) as [Hv|Hv].
  - destruct (adjacent_successor p q v Hadj) as (a & Ha & Hpos & Hval).
    pose proof (final_relaxed L p v a HL Hp Hv Ha) as Hs.
    unfold settled in Hs. rewrite Hpos, Hq in Hs.
    destruct Hs as [Hs|Hs]; [lia|congruence].
  - pose proof (final_bounded L _ _ HL Hq). lia.
Qed.

(** X3: in the field the propagation ends with, the values of two adjacent
    unoccupied cells differ by at most one, and the cell below a cell with
    full light has full light when it is unoccupied. *)
Theorem lighting_neighbours_differ_by_at_most_one L p q v u :
  calculateLighting vm = Some L →
  adjacent p q →
  L !! Vector3.stringify p = Some v →
  L !! Vector3.stringify q = Some u →
  isVoxelAt vm p = false →
  isVoxelAt vm q = false →
  Z.abs (v - u) ≤ 1 ∧
  (q = Vector3.add (Vector3.mk 0 (-1) 0) p → v = 15 → u = 15).
Proof.
  intros HL Hadj Hp Hq Hpo Hqo.
  pose proof (final_flow L p q v u HL Hadj Hp Hq Hqo).
  pose proof (final_flow L q p u v HL (adjacent_sym _ _ Hadj) Hq Hp Hpo).
  split; [lia|]. intros -> ->.
  assert (mkAction (Vector3.add (Vector3.mk 0 (-1) 0) p) 15 ∈ successors p 15) as Ha.
  { apply elem_of_successors. left. reflexivity. }
  pose proof (final_relaxed L p 15 _ HL Hp ltac:(lia) Ha) as Hs.
  unfold settled in Hs. cbn [pos value] in Hs. rewrite Hq in Hs.
  pose proof (final_bounded L _ _ HL Hq).
  destruct Hs as [Hs|Hs]; [lia|congruence].
Qed.

(** A cell of the tracked volume has full light when it and all the cells
    above it, up to the top layer, are unoccupied. *)
Lemma open_column_lit L p :
  calculateLighting vm = Some L →
  tracked (getBounds vm) p →
  (∀ y, Vector3.y p ≤ y ≤ Vector3.y (Bounds.max (getBounds vm)) + 1 →
        isVoxelAt vm (Vector3.mk (Vector3.x p) y (Vector3.z p)) = false) →
  L !! Vector3.stringify p = Some 15.
Proof.
  intros HL.
  remember (Z.to_nat (Vector3.y (Bounds.max (getBounds vm)) + 1 - Vector3.y p)) as n
    eqn:Hn.
  revert p Hn. induction n as [|n IH]; intros p Hn Ht Hopen.
  - apply (top_layer_lit vm L p HL Ht).
    + unfold tracked in Ht. lia.
    + rewrite <- (Hopen (Vector3.y p)); [by destruct p|unfold tracked in Ht; lia].
  - set (p' := Vector3.mk (Vector3.x p) (Vector3.y p + 1) (Vector3.z p)).
    assert (L !! Vector3.stringify p' = Some 15) as Hp'.
    { apply IH; subst p'; simpl.
      - lia.
      - unfold tracked in *; simpl. lia.
      - intros y Hy. apply Hopen. lia. }
    assert (mkAction p 15 ∈ successors p' 15) as Ha.
    { apply elem_of_successors. left. subst p'. destruct p as [x y z].
      unfold Vector3.add; simpl. do 2 f_equal. lia. }
    pose proof (final_relaxed L p' 15 _ HL Hp' ltac:(lia) Ha) as Hs.
    unfold settled in Hs. cbn [pos value] in Hs.
    destruct (proj2 (final_lookup_tracked L p HL) Ht) as [u Hu].
    rewrite Hu in Hs. pose proof (final_bounded L _ _ HL Hu).
    destruct Hs as [Hs|Hs].
    + rewrite Hu. f_equal. lia.
    + assert (isVoxelAt vm p = false) as Hfree; [|congruence].
      rewrite <- (Hopen (Vector3.y p)); [by destruct p|unfold tracked in Ht; lia].
Qed.

(** X5: every light in the field the propagation ends with has a source:
    a cell with full light is on the top layer or below a cell with full
    light, and a cell with a light [v] between 1 and 14 has a neighbour
    with exactly [v + 1]. *)
Theorem light_has_a_source L p v :
  calculateLighting vm = Some L →
  L !! Vector3.stringify p = Some v →
  0 < v →
  (v = 15 ∧
   (Vector3.y p = Vector3.y (Bounds.max (getBounds vm)) + 1
    ∨ L !! Vector3.stringify (Vector3.add (Vector3.mk 0 1 0) p) = Some 15))
  ∨ (v < 15 ∧ ∃ q, adjacent p q ∧ L !! Vector3.stringify q = Some (v + 1)).
Proof.
  intros HL Hp Hv. destruct (final_state L HL) as (st & Hst & _ & Hr).
  destruct (reachable_sourced st Hr) as [Hstored _].
  rewrite <- Hst in Hp. destruct (Hstored p v Hp Hv) as [Hsun|(q & w & Hadj & Hq & Hw)].
  - left. by rewrite <- Hst.
  - right. rewrite Hst in Hp, Hq.
    pose proof (final_bounded L _ _ HL Hq).
    split; [lia|]. exists q. split; [done|]. rewrite Hq. f_equal.
    assert (isVoxelAt vm p = false) as Hpo.
    { destruct (isVoxelAt vm p) eqn:Hocc; [|done].
      pose proof (final_opaque L p v HL Hocc Hp). lia. }
    pose proof (final_flow L q p w v HL (adjacent_sym _ _ Hadj) Hq Hp Hpo). lia.
Qed.

Lemma full_light_open_column L p :
  calculateLighting vm = Some L →
  L !! Vector3.stringify p = Some 15 →
  ∀ y, Vector3.y p ≤ y ≤ Vector3.y (Bounds.max (getBounds vm)) + 1 →
       isVoxelAt vm (Vector3.mk (Vector3.x p) y (Vector3.z p)) = false ∧
       L !! (Vector3.x p, y, Vector3.z p) = Some 15.
Proof.
  intros HL.
  remember (Z.to_nat (Vector3.y (Bounds.max (getBounds vm)) + 1 - Vector3.y p)) as n
    eqn:Hn.
  revert p Hn. induction n as [|n IH]; intros p Hn Hp y Hy.
  all: assert (isVoxelAt vm p = false) as Hfree
         by (destruct (isVoxelAt vm p) eqn:Hocc; [|done];
             by pose proof (final_opaque L p 15 HL Hocc Hp)).
  - assert (y = Vector3.y p) as -> by lia. by destruct p.
  - destruct (decide (y = Vector3.y p)) as [->|Hne]; [by destruct p|].
    assert (L !! Vector3.stringify (Vector3.add (Vector3.mk 0 1 0) p) = Some 15)
      as Hup.
    { destruct (final_state L HL) as (st & Hst & _ & Hr).
      destruct (reachable_sourced st Hr) as [Hstored _].
      rewrite <- Hst in Hp.
      destruct (Hstored p 15 Hp ltac:(lia))
        as [[_ [Htop|Hup]]|(q & w & _ & Hq & Hw)].
      - lia.
      - by rewrite <- Hst.
      - rewrite Hst in Hq. pose proof (final_bounded L _ _ HL Hq). lia. }
    specialize (IH (Vector3.add (Vector3.mk 0 1 0) p)).
    destruct p as [px py pz]. unfold Vector3.add in *. simpl in *.
    apply IH; [lia|done|lia].
Qed.

(** X4: a cell of the tracked volume has full light exactly when it sees
    the sky: when it and all the cells above it, up to the top layer of the
    tracked volume, are unoccupied. *)
Theorem full_light_iff_open_column L p :
  calculateLighting vm = Some L →
  tracked (getBounds vm) p →
  L !! Vector3.stringify p = Some 15
  ↔ ∀ y, Vector3.y p ≤ y ≤ Vector3.y (Bounds.max (getBounds vm)) + 1 →
         isVoxelAt vm (Vector3.mk (Vector3.x p) y (Vector3.z p)) = false.
Proof.
  intros HL Ht. split.
  - intros Hp y Hy. by apply (full_light_open_column L p HL Hp y Hy).
  - by apply open_column_lit.
Qed.

End WithMesh.
End LightingConvergence.

(** ** More on the assignment and on the factory *)

Section AssignFrame.
Context `{ExternalTypes} `{!Collaborators}.

(** The loop over the voxels only touches the blocks and the used names. *)
Lemma foldl_assignVoxel_frame params ap all nonF assigner vs this cf w this' cf' w' :
  foldl (assignVoxel params ap all nonF assigner) (this, cf, w) vs = (this', cf', w') →
  _voxelMesh this' = _voxelMesh this ∧ _fallableBlocks this' = _fallableBlocks this ∧
  _atlas this' = _atlas this ∧ _lighting this' = _lighting this ∧
  _bufferChunks this' = _bufferChunks this.
Proof.
  revert this cf w. induction vs as [|v vs IH]; intros this cf w Hfold.
  - by injection Hfold as <- _ _.
  - cbn [foldl] in Hfold.
    destruct (assignVoxel params ap all nonF assigner (this, cf, w) v)
      as [[this1 cf1] w1] eqn:Hone.
    apply IH in Hfold as (-> & -> & -> & -> & ->).
    unfold assignVoxel in Hone.
    destruct (call_assignBlock _ _ _ _ _ _ _ _) as [cand w0].
    destruct (shouldReplace _ _ _).
    + destruct (call_assignBlock _ _ _ _ _ _ _ _) as [block w2].
      injection Hone as <- _ _. by destruct (negb _).
    + injection Hone as <- _ _. by destruct (negb _).
Qed.

Lemma assignBlocks_frame this params w this' w' :
  _assignBlocks this params w = Ok (this', w') →
  ∃ atlas palette,
    Atlas_load (textureAtlas params) = Some atlas ∧
    Palette_load (blockPalette params) = Some palette ∧
    _voxelMesh this' = _voxelMesh this ∧ _fallableBlocks this' = _fallableBlocks this ∧
    _atlas this' = atlas ∧ _lighting this' = _lighting this ∧
    _bufferChunks this' = _bufferChunks this.
Proof.
  unfold _assignBlocks. intros Hok.
  destruct (Atlas_load _) as [atlas|]; [|done].
  destruct (Palette_load _) as [palette|]; [|done].
  destruct (foldl _ _ _) as [[this1 cf] w1] eqn:Hfold.
  apply foldl_assignVoxel_frame in Hfold.
  exists atlas, palette. split; [done|]. split; [done|].
  assert (this' = this1) as -> by (destruct (_ && _); congruence).
  by destruct Hfold as (-> & -> & -> & -> & ->).
Qed.

(** What a successful run of the factory is made of. *)
Lemma createFromVoxelMesh_inv vm fb params w m w' :
  createFromVoxelMesh vm fb params w = Ok (m, w') →
  ∃ this' L,
    _assignBlocks (new_BlockMesh vm fb) params w = Ok (this', w') ∧
    _voxelMesh this' = vm ∧
    Lighting.calculateLighting vm = Some L ∧
    m = set_lighting this' L.
Proof.
  unfold createFromVoxelMesh. intros Hok.
  destruct (_assignBlocks _ _ _) as [[this' w1]| |] eqn:Hassign; [|done|done].
  destruct (assignBlocks_frame _ _ _ _ _ Hassign) as (_ & _ & _ & _ & Hvm & _).
  destruct (calculateLighting_Ok this') as (L & HL & Hlight).
  rewrite Hlight in Hok. injection Hok as <- <-.
  exists this', L. rewrite Hvm in HL. done.
Qed.

(** X7: the block mesh the factory returns keeps the voxel mesh and the
    fallable names it was given, holds the atlas that was loaded, has one
    block per voxel, an empty chunk cache, and the lighting field of the
    voxel mesh alone: the lighting does not depend on the parameters, the
    assigner or the blocks. *)
Theorem createFromVoxelMesh_result vm fb params w m w' :
  createFromVoxelMesh vm fb params w = Ok (m, w') →
  getVoxelMesh m = vm ∧
  _fallableBlocks m = fb ∧
  Atlas_load (textureAtlas params) = Some (getAtlas m) ∧
  voxel <$> getBlocks m = getVoxels vm ∧
  getAllChunkedBuffers m = ∅ ∧
  Lighting.calculateLighting vm = Some (_lighting m).
Proof.
  intros Hok.
  destruct (createFromVoxelMesh_inv _ _ _ _ _ _ Hok) as (this' & L & Hassign & _ & HL & ->).
  destruct (assignBlocks_frame _ _ _ _ _ Hassign)
    as (atlas & palette & Hatlas & Hpalette & Hvm & Hfb & Ha & Hl & Hc).
  destruct (assignBlocks_Ok (new_BlockMesh vm fb) params w atlas palette
              Hatlas Hpalette) as (this2 & Hok2 & Hblocks & _ & _).
  rewrite Hassign in Hok2. injection Hok2 as <- _.
  cbn [new_BlockMesh _voxelMesh _fallableBlocks _blocks _bufferChunks app] in *.
  unfold getVoxelMesh, getAtlas, getBlocks, getAllChunkedBuffers.
  cbn [set_lighting _voxelMesh _fallableBlocks _atlas _blocks _bufferChunks _lighting].
  rewrite Hblocks, passOutcome_voxels.
  by rewrite Ha.
Qed.

(** X14: on the block mesh the factory returns, [getBlockLighting] gives
    six values, for the neighbours towards +X, -X, +Y, -Y, +Z and -Z in this
    order; each lies in [0,15]; a neighbour outside the expanded bounds
    reads 15, an occupied neighbour inside them reads 0, and around a
    position inside the bounds of the voxel mesh all six values are stored
    ones. *)
Theorem getBlockLighting_faces vm fb params w m w' p :
  createFromVoxelMesh vm fb params w = Ok (m, w') →
  length (getBlockLighting m p) = 6%nat ∧
  ∀ i d, directions !! i = Some d →
    let q := Vector3.add d p in
    ∃ l, getBlockLighting m p !! i = Some l ∧
         0 ≤ l ≤ 15 ∧
         (¬ tracked (getBounds vm) q → l = 15) ∧
         (tracked (getBounds vm) q → isVoxelAt vm q = true → l = 0) ∧
         (Vector3.x (Bounds.min (getBounds vm)) ≤ Vector3.x p
            ≤ Vector3.x (Bounds.max (getBounds vm)) →
          Vector3.y (Bounds.min (getBounds vm)) ≤ Vector3.y p
            ≤ Vector3.y (Bounds.max (getBounds vm)) →
          Vector3.z (Bounds.min (getBounds vm)) ≤ Vector3.z p
            ≤ Vector3.z (Bounds.max (getBounds vm)) →
          _lighting m !! Vector3.stringify q = Some l).
Proof.
  intros Hok.
  destruct (createFromVoxelMesh_inv _ _ _ _ _ _ Hok) as (this' & L & _ & _ & HL & ->).
  split; [done|]. intros i d Hd q.
  assert (getBlockLighting (set_lighting this' L) p
          = (fun d => lightAt (set_lighting this' L) (Vector3.add d p)) <$> directions)
    as -> by reflexivity.
  rewrite list_lookup_fmap, Hd. cbn [fmap option_fmap option_map]. fold q.
  exists (lightAt (set_lighting this' L) q). split; [done|].
  unfold lightAt. cbn [set_lighting _lighting].
  pose proof (LightingConvergence.final_lookup_tracked vm L q HL) as Hdom.
  destruct (L !! Vector3.stringify q) as [l|] eqn:Hq; cbn [default].
  - pose proof (LightingConvergence.final_bounded vm L _ _ HL Hq).
    split; [done|]. split; [|split; [|done]].
    + intros Hnt. destruct Hnt. apply Hdom. eauto.
    + intros _ Hocc. by apply (LightingConvergence.final_opaque vm L q l HL).
  - split; [lia|]. split; [done|]. split.
    + intros Ht. apply Hdom in Ht. by destruct Ht.
    + intros Hx Hy Hz. exfalso.
      assert (tracked (getBounds vm) q) as Ht.
      { apply list_elem_of_lookup_2, LightingConvergence.elem_of_directions in Hd.
        subst q. unfold tracked, Vector3.add.
        destruct Hd as [-> | [-> | [-> | [-> | [-> | ->]]]]]; simpl; lia. }
      apply Hdom in Ht. by destruct Ht.
Qed.

End AssignFrame.

Section AssignModes.
Context `{ExternalTypes} `{!Collaborators}.

Variable vm : VoxelMesh RGBA.
Variable fb : list string.
Variable params : AssignParams_Input.
Variable atlas : Atlas.
Variable palette : Palette.

Let ap := mkAtlasPalette atlas palette.
Let all := createBlockCollection ap [].
Let nonF := createBlockCollection ap fb.
Let assigner := GetAssigner (blockAssigner params).

(** The collection built with nothing to exclude holds every block the
    palette makes available. *)
Lemma createBlockCollection_nil : all = paletteBlocks atlas palette.
Proof.
  unfold all, createBlockCollection. cbn [ap ap_atlas ap_palette].
  induction (paletteBlocks atlas palette) as [|b l IH]; [done|].
  rewrite filter_cons_True; [by rewrite IH|].
  apply includes_false, not_elem_of_nil.
Qed.

Lemma createBlockCollection_subseteq excluded b :
  b ∈ createBlockCollection ap excluded → b ∈ paletteBlocks atlas palette.
Proof. unfold createBlockCollection. rewrite list_elem_of_filter. tauto. Qed.

(** The calls of a pass, voxel by voxel: for each voxel, in order, one
    call on the collection of all blocks with the configured colour space,
    followed or not by one call on the non-fallable collection with RGB. *)
Lemma passOutcome_calls w0 vs :
  ∃ perVoxel : list (list Event),
    trace (passOutcome params ap all nonF assigner fb vm w0 vs).2
    = trace w0 ++ concat perVoxel ∧
    Forall2 (fun v calls =>
               let first := EvAssignBlock ap (colour v) (position v)
                              (resolution params) (colourSpace params) all in
               let second := EvAssignBlock ap (colour v) (position v)
                               (resolution params) ColourSpace_RGB nonF in
               calls = [first] ∨ calls = [first; second])
      vs perVoxel.
Proof.
  revert w0. induction vs as [|v vs IH]; intros w0.
  - exists []. cbn. rewrite app_nil_r. split; [done|constructor].
  - cbn [passOutcome]. unfold outcome, call_assignBlock.
    destruct (assigner (oracle w0) ap (colour v) (position v) (resolution params)
                (colourSpace params) all) as [cand o1].
    cbn [oracle trace].
    set (first := EvAssignBlock ap (colour v) (position v) (resolution params)
                    (colourSpace params) all).
    set (second := EvAssignBlock ap (colour v) (position v) (resolution params)
                     ColourSpace_RGB nonF).
    destruct (shouldReplace _ _ _).
    + destruct (assigner o1 ap (colour v) (position v) (resolution params)
                  ColourSpace_RGB nonF) as [block o2].
      destruct (IH (mkWorld o2 ((trace w0 ++ [first]) ++ [second])))
        as (perVoxel & Ht & Hall).
      destruct (passOutcome _ _ _ _ _ _ _ _ vs) as [rs w2]. cbn [fst snd trace] in *.
      exists ([first; second] :: perVoxel).
      split; [by rewrite Ht, <- !app_assoc|].
      constructor; [by right|exact Hall].
    + destruct (IH (mkWorld o1 (trace w0 ++ [first]))) as (perVoxel & Ht & Hall).
      destruct (passOutcome _ _ _ _ _ _ _ _ vs) as [rs w2]. cbn [fst snd trace] in *.
      exists ([first] :: perVoxel).
      split; [by rewrite Ht, <- !app_assoc|].
      constructor; [by left|exact Hall].
Qed.

(** X8: in every mode, when the atlas and the palette load, the calls the
    assignment adds to the trace are, for each voxel of the voxel mesh in
    order, either one call of the assigner, on the collection of all blocks
    with the configured colour space, or that call followed by one call on
    the non-fallable collection with RGB: at least one and at most two
    calls for each voxel, and none for anything else.  It never calls the
    buffer generator, and after the calls it adds at most one status
    message, a warning, and only under 'do-nothing'. *)
Theorem assignBlocks_calls_and_messages w :
  Atlas_load (textureAtlas params) = Some atlas →
  Palette_load (blockPalette params) = Some palette →
  ∃ this' w' (perVoxel : list (list Event)) messages,
    _assignBlocks (new_BlockMesh vm fb) params w = Ok (this', w') ∧
    trace w' = trace w ++ concat perVoxel ++ messages ∧
    Forall2 (fun v calls =>
               let first := EvAssignBlock ap (colour v) (position v)
                              (resolution params) (colourSpace params) all in
               let second := EvAssignBlock ap (colour v) (position v)
                               (resolution params) ColourSpace_RGB nonF in
               calls = [first] ∨ calls = [first; second])
      (getVoxels vm) perVoxel ∧
    (messages = []
     ∨ fallable params = do_nothing ∧ ∃ m, messages = [EvStatusAdd "warning" m]) ∧
    generated (trace w') = generated (trace w).
Proof.
  intros Hatlas Hpalette.
  destruct (assignBlocks_Ok (new_BlockMesh vm fb) params w atlas palette
              Hatlas Hpalette) as (this' & Hok & _).
  cbn [new_BlockMesh _voxelMesh _fallableBlocks] in Hok.
  fold ap all nonF assigner in Hok.
  destruct (passOutcome_calls w (getVoxels vm)) as (perVoxel & Ht & Hall).
  destruct (passOutcome params ap all nonF assigner fb vm w (getVoxels vm))
    as [rs w2]. cbn [fst snd] in *.
  assert (generated (trace w ++ concat perVoxel) = generated (trace w)) as Hgen.
  { unfold generated. rewrite omap_app.
    assert (omap (fun e : Event =>
                    match e with EvFromBlockMesh k => Some k | _ => None end)
              (concat perVoxel) = []) as ->; [|by rewrite app_nil_r].
    clear Ht. induction Hall as [|v calls vs perVoxel [-> | ->] _ IH]; [done|..];
      cbn [concat app omap]; exact IH. }
  destruct (bool_decide (fallable params = do_nothing)) eqn:Hmode;
    [apply bool_decide_eq_true in Hmode|]; cbn [andb] in Hok.
  - destruct (_ >? 0).
    + eexists this', _, perVoxel, [_]. split; [exact Hok|].
      cbn [StatusHandler_add trace]. rewrite Ht, <- app_assoc.
      split; [done|]. split; [done|]. split; [right; eauto|].
      rewrite app_assoc. unfold generated in *. rewrite omap_app, Hgen.
      cbn. by rewrite app_nil_r.
    + eexists this', _, perVoxel, []. split; [exact Hok|].
      rewrite app_nil_r, Ht. repeat (split; [done|]). split; [by left|done].
  - eexists this', _, perVoxel, []. split; [exact Hok|].
    rewrite app_nil_r, Ht. repeat (split; [done|]). split; [by left|done].
Qed.

(** X9: under 'place-string', when the atlas and the palette load, no
    candidate is replaced and nothing is reported, whether or not blocks
    will fall: the blocks are the candidates and the only calls are one
    call of the assigner per voxel. *)
Theorem place_string_never_replaces_never_warns w :
  fallable params = place_string →
  Atlas_load (textureAtlas params) = Some atlas →
  Palette_load (blockPalette params) = Some palette →
  ∃ this' w',
    _assignBlocks (new_BlockMesh vm fb) params w = Ok (this', w') ∧
    (getBlocks this', oracle w')
    = candidates assigner ap (resolution params) (colourSpace params) all
        (getVoxels vm) (oracle w) ∧
    trace w'
    = trace w ++ ((fun v => EvAssignBlock ap (colour v) (position v)
                              (resolution params) (colourSpace params) all)
                    <$> getVoxels vm).
Proof.
  intros Hmode Hatlas Hpalette.
  destruct (assignBlocks_Ok (new_BlockMesh vm fb) params w atlas palette
              Hatlas Hpalette) as (this' & Hok & Hblocks & _).
  cbn [new_BlockMesh _blocks _voxelMesh _fallableBlocks app] in *.
  destruct (passOutcome_no_replace vm fb params atlas palette w (getVoxels vm))
    as (Hc & Ht & _).
  { intros f s. unfold shouldReplace. rewrite Hmode. by destruct f, s. }
  fold ap all nonF assigner in Hok, Hblocks, Hc, Ht.
  destruct (passOutcome params ap all nonF assigner fb vm w (getVoxels vm))
    as [rs w2]. cbn [fst snd] in *.
  rewrite Hmode in Hok. rewrite bool_decide_eq_false_2 in Hok by done.
  cbn [andb] in Hok. eexists this', _. split; [exact Hok|].
  unfold getBlocks. by rewrite Hblocks, Hc, Ht.
Qed.

(** X10: under 'replace-falling', if the assigner always returns a block
    of the collection it is given, for the two collections of the pass,
    then no block of the resulting mesh will fall: a block with a fallable
    name has a voxel directly below it. *)
Theorem replace_falling_leaves_no_falling_block w :
  fallable params = replace_falling →
  Atlas_load (textureAtlas params) = Some atlas →
  Palette_load (blockPalette params) = Some palette →
  (∀ o c p r cs coll,
      coll ∈ [all; nonF] → (assigner o ap c p r cs coll).1 ∈ coll) →
  ∃ this' w',
    _assignBlocks (new_BlockMesh vm fb) params w = Ok (this', w') ∧
    ∀ b, b ∈ getBlocks this' → ¬ falling fb vm b.
Proof.
  intros Hmode Hatlas Hpalette Hmember.
  destruct (assignBlocks_Ok (new_BlockMesh vm fb) params w atlas palette
              Hatlas Hpalette) as (this' & Hok & Hblocks & _).
  cbn [new_BlockMesh _blocks _voxelMesh _fallableBlocks app] in *.
  eexists this', _. split; [exact Hok|].
  unfold getBlocks. rewrite Hblocks. fold ap all nonF assigner.
  generalize (getVoxels vm) as vs. generalize w as w0.
  intros w0 vs. revert w0. induction vs as [|v vs IH]; intros w0 b Hb.
  { by apply elem_of_nil in Hb. }
  cbn [passOutcome] in Hb. unfold outcome, call_assignBlock in Hb.
  destruct (assigner (oracle w0) ap (colour v) (position v) (resolution params)
              (colourSpace params) all) as [cand o1].
  unfold shouldReplace in Hb. rewrite Hmode in Hb.
  rewrite bool_decide_eq_false_2, bool_decide_eq_true_2 in Hb by done.
  cbn [andb orb oracle trace] in Hb.
  destruct (includes fb (BlockInfo_name cand)) eqn:Hf;
    destruct (isVoxelAt vm (Vector3.add (position v) (Vector3.mk 0 (-1) 0))) eqn:Hs;
    cbn [andb negb] in Hb.
  2:{ pose proof (Hmember o1 (colour v) (position v) (resolution params)
                    ColourSpace_RGB nonF) as Hin.
      destruct (assigner o1 ap (colour v) (position v) (resolution params)
                  ColourSpace_RGB nonF) as [block o2].
      match type of Hb with
      | context [passOutcome _ _ _ _ _ _ _ ?w1 vs] => specialize (IH w1)
      end.
      destruct (passOutcome _ _ _ _ _ _ _ _ vs) as [rs w2].
      cbn [fst snd fmap list_fmap] in *.
      apply elem_of_cons in Hb as [->|Hb]; [|by apply IH].
      intros [Hname _]. cbn [blockInfo] in Hname.
      assert (block ∈ nonF) as Hblock.
      { apply Hin. apply elem_of_cons; right. apply elem_of_cons; by left. }
      unfold nonF, createBlockCollection in Hblock.
      apply list_elem_of_filter in Hblock as [Hblock _].
      by apply includes_false in Hblock. }
  all: match type of Hb with
       | context [passOutcome ?a1 ?a2 ?a3 ?a4 ?a5 ?a6 ?a7 ?w1 ?l] =>
           specialize (IH w1);
           destruct (passOutcome a1 a2 a3 a4 a5 a6 a7 w1 l) as [rs w2]
       end;
       cbn [fst snd fmap list_fmap] in *;
       (apply elem_of_cons in Hb as [->|Hb]; [|by apply IH]);
       intros [Hname Hbelow]; cbn [blockInfo voxel] in *.
  - congruence.
  - by apply includes_false in Hf.
  - by apply includes_false in Hf.
Qed.

(** X11: if the assigner always returns a block of the collection it is
    given, for the two collections of the pass, then every block of the
    resulting mesh is a block the palette makes available, and every used
    name is the name of such a block. *)
Theorem assigned_blocks_come_from_the_palette w :
  Atlas_load (textureAtlas params) = Some atlas →
  Palette_load (blockPalette params) = Some palette →
  (∀ o c p r cs coll,
      coll ∈ [all; nonF] → (assigner o ap c p r cs coll).1 ∈ coll) →
  ∃ this' w',
    _assignBlocks (new_BlockMesh vm fb) params w = Ok (this', w') ∧
    (∀ b, b ∈ getBlocks this' → blockInfo b ∈ paletteBlocks atlas palette) ∧
    (∀ n, n ∈ getBlockPalette this' →
          ∃ i, i ∈ paletteBlocks atlas palette ∧ BlockInfo_name i = n).
Proof.
  intros Hatlas Hpalette Hmember.
  destruct (assignBlocks_Ok (new_BlockMesh vm fb) params w atlas palette
              Hatlas Hpalette) as (this' & Hok & Hblocks & Hused & _).
  cbn [new_BlockMesh _blocks _blocksUsed _voxelMesh _fallableBlocks app] in *.
  eexists this', _. split; [exact Hok|].
  fold ap all nonF assigner in Hblocks, Hused.
  assert (∀ b, b ∈ getBlocks this' → blockInfo b ∈ paletteBlocks atlas palette)
    as Hfrom.
  { unfold getBlocks. rewrite Hblocks.
    generalize (getVoxels vm) as vs. generalize w as w0.
    intros w0 vs. revert w0. induction vs as [|v vs IH]; intros w0 b Hb.
    { by apply elem_of_nil in Hb. }
    cbn [passOutcome] in Hb. unfold outcome, call_assignBlock in Hb.
    pose proof (Hmember (oracle w0) (colour v) (position v) (resolution params)
                  (colourSpace params) all) as Hin1.
    destruct (assigner (oracle w0) ap (colour v) (position v) (resolution params)
                (colourSpace params) all) as [cand o1].
    cbn [oracle trace] in Hb.
    pose proof (Hmember o1 (colour v) (position v) (resolution params)
                  ColourSpace_RGB nonF) as Hin2.
    destruct (shouldReplace _ _ _).
    - destruct (assigner o1 ap (colour v) (position v) (resolution params)
                  ColourSpace_RGB nonF) as [block o2].
      match type of Hb with
      | context [passOutcome _ _ _ _ _ _ _ ?w1 vs] => specialize (IH w1)
      end.
      destruct (passOutcome _ _ _ _ _ _ _ _ vs) as [rs w2].
      cbn [fst snd fmap list_fmap] in *.
      apply elem_of_cons in Hb as [->|Hb]; [|by apply IH].
      cbn [blockInfo]. apply (createBlockCollection_subseteq fb), Hin2.
      apply elem_of_cons; right. apply elem_of_cons; by left.
    - match type of Hb with
      | context [passOutcome _ _ _ _ _ _ _ ?w1 vs] => specialize (IH w1)
      end.
      destruct (passOutcome _ _ _ _ _ _ _ _ vs) as [rs w2].
      cbn [fst snd fmap list_fmap] in *.
      apply elem_of_cons in Hb as [->|Hb]; [|by apply IH].
      cbn [blockInfo]. apply (createBlockCollection_subseteq []), Hin1.
      apply elem_of_cons; by left. }
  split; [exact Hfrom|].
  intros n Hn. unfold getBlockPalette in Hn.
  rewrite Hused, foldl_addUsed_nil in Hn.
  apply elem_of_firstOccurrences, list_elem_of_fmap in Hn as ([b f] & -> & Hb).
  exists (blockInfo b). split; [|done]. apply Hfrom.
  unfold getBlocks. rewrite Hblocks. apply list_elem_of_fmap. by exists (b, f).
Qed.

End AssignModes.

(** ** More on the chunked buffer cache *)

Section ChunkCacheMore.
Context `{ExternalTypes} `{!Collaborators}.

(** What one request does, whether the chunk is stored or not. *)
Lemma getChunkedBuffer_spec this k w r this' w' :
  getChunkedBuffer this k w = (r, this', w') →
  ∃ c evs,
    r = Some c ∧ _bufferChunks this' = <[k := c]> (_bufferChunks this) ∧
    trace w' = trace w ++ evs ∧
    (_bufferChunks this !! k = Some c ∧ evs = [] ∧ this' = this ∧ w' = w
     ∨ _bufferChunks this !! k = None ∧ evs = [EvFromBlockMesh k]) ∧
    _blocks this' = _blocks this ∧ _blocksUsed this' = _blocksUsed this ∧
    _lighting this' = _lighting this ∧ _voxelMesh this' = _voxelMesh this ∧
    _atlas this' = _atlas this ∧ _fallableBlocks this' = _fallableBlocks this.
Proof.
  intros Hone. destruct (_bufferChunks this !! k) as [c|] eqn:Hk.
  - rewrite (getChunkedBuffer_cached this k w c Hk) in Hone.
    injection Hone as <- <- <-. exists c, [].
    rewrite insert_id by done. rewrite app_nil_r. split; [done|].
    split; [done|]. split; [done|]. split; [left; done|done].
  - pose proof (getChunkedBuffer_fresh this k w Hk) as Hfresh.
    destruct (fromBlockMesh (oracle w) this k) as [c o].
    rewrite Hfresh in Hone. injection Hone as <- <- <-.
    exists c, [EvFromBlockMesh k]. cbn. split; [done|].
    split; [done|]. split; [done|]. split; [right; done|done].
Qed.

(** X12: a request that is repeated at once changes nothing: it returns
    the same chunk and leaves the block mesh and the world as they are,
    so the generator is not called again. *)
Theorem getChunkedBuffer_twice this k w r this' w' :
  getChunkedBuffer this k w = (r, this', w') →
  getChunkedBuffer this' k w' = (r, this', w').
Proof.
  intros Hone.
  destruct (getChunkedBuffer_spec _ _ _ _ _ _ Hone) as (c & evs & -> & Hc & _).
  apply getChunkedBuffer_cached. rewrite Hc. apply lookup_insert_eq.
Qed.

(** X13: after any sequence of requests, the cache holds a chunk exactly
    at the indices it held one at before and at the indices that were
    requested; the generator was called exactly for the requested indices
    that were not stored before; and the requests leave the blocks, the
    used names, the lighting, the voxel mesh, the atlas and the fallable
    names of the block mesh as they were. *)
Theorem getChunkedBuffers_cache_and_frame
    (ks : list Z) (this this' : BlockMesh) (w w' : World)
    (rs : list (option ChunkBuffer)) :
  getChunkedBuffers ks this w = (rs, this', w') →
  (∀ k, is_Some (getAllChunkedBuffers this' !! k)
        ↔ is_Some (getAllChunkedBuffers this !! k) ∨ k ∈ ks) ∧
  (∃ evs, trace w' = trace w ++ evs ∧
     ∀ k, k ∈ generated evs ↔ k ∈ ks ∧ getAllChunkedBuffers this !! k = None) ∧
  _blocks this' = _blocks this ∧ _blocksUsed this' = _blocksUsed this ∧
  _lighting this' = _lighting this ∧ _voxelMesh this' = _voxelMesh this ∧
  _atlas this' = _atlas this ∧ _fallableBlocks this' = _fallableBlocks this.
Proof.
  unfold getAllChunkedBuffers.
  revert this w rs this' w'.
  induction ks as [|k ks IH]; intros this w rs this' w' Hrun.
  - injection Hrun as <- <- <-. split.
    { intros k. rewrite elem_of_nil. tauto. }
    split; [|done]. exists []. rewrite app_nil_r. split; [done|].
    intros k. cbn. rewrite !elem_of_nil. tauto.
  - cbn [getChunkedBuffers] in Hrun.
    destruct (getChunkedBuffer this k w) as [[r this1] w1] eqn:Hone.
    destruct (getChunkedBuffers ks this1 w1) as [[rs1 this2] w2] eqn:Hrest.
    injection Hrun as <- <- <-.
    destruct (IH _ _ _ _ _ Hrest)
      as (Hdom & (evs2 & Ht2 & Hgen2) & -> & -> & -> & -> & -> & ->).
    destruct (getChunkedBuffer_spec _ _ _ _ _ _ Hone)
      as (c & evs1 & _ & Hc & Ht1 & Hcase & -> & -> & -> & -> & -> & ->).
    split.
    { intros k'. rewrite Hdom, Hc, elem_of_cons.
      destruct (decide (k = k')) as [->|Hne].
      - rewrite lookup_insert_eq. split; [auto|]. intros _. left. eauto.
      - rewrite lookup_insert_ne by done. split; [tauto|].
        intros [?|[?|?]]; [tauto|congruence|tauto]. }
    split; [|done].
    exists (evs1 ++ evs2). split; [by rewrite Ht2, Ht1, app_assoc|].
    intros k'. unfold generated in *. rewrite omap_app, elem_of_app, Hgen2, Hc.
    rewrite elem_of_cons.
    destruct Hcase as [(Hk & -> & _ & _)|(Hk & ->)]; cbn.
    + rewrite elem_of_nil. destruct (decide (k = k')) as [->|Hne].
      * rewrite lookup_insert_eq, Hk. split; [|by intros [_ ?]].
        intros [[]|[_ ?]]; done.
      * rewrite lookup_insert_ne by done. split; [tauto|].
        intros [[?|?] ?]; [congruence|tauto].
    + rewrite list_elem_of_singleton. destruct (decide (k = k')) as [->|Hne].
      * rewrite lookup_insert_eq. split; [|auto].
        intros [_|[_ ?]]; [auto|done].
      * rewrite lookup_insert_ne by done. split.
        -- intros [?|?]; [congruence|tauto].
        -- intros [[?|?] ?]; [congruence|tauto].
Qed.

End ChunkCacheMore.

(** ** Utilities *)

Module AppUtilFacts.
Import AppUtil.

Lemma String_includes_app s1 s2 sub :
  String_includes s2 sub = true → String_includes (s1 +:+ s2) sub = true.
Proof.
  intros Hs2. induction s1 as [|c s1 IH]; [done|].
  change (String_includes (String c (s1 +:+ s2)) sub = true).
  change (String_startsWith (String c (s1 +:+ s2)) sub
          || String_includes (s1 +:+ s2) sub = true).
  rewrite IH. apply orb_true_r.
Qed.

(** X15: [namespaceBlock] always returns a namespaced name, leaves a
    namespaced name as it is, and applied twice gives what it gives applied
    once. *)
Theorem namespaceBlock_idempotent blockName :
  isNamespacedBlock (namespaceBlock blockName) = true ∧
  (isNamespacedBlock blockName = true → namespaceBlock blockName = blockName) ∧
  namespaceBlock (namespaceBlock blockName) = namespaceBlock blockName.
Proof.
  assert (isNamespacedBlock (namespaceBlock blockName) = true) as Hns.
  { unfold namespaceBlock. destruct (isNamespacedBlock blockName) eqn:Hb; [done|].
    unfold isNamespacedBlock.
    change ("minecraft:" +:+ blockName) with ("minecraft" +:+ (":" +:+ blockName)).
    apply String_includes_app. reflexivity. }
  split; [done|]. split.
  - intros Hb. unfold namespaceBlock. by rewrite Hb.
  - unfold namespaceBlock at 1. by rewrite Hns.
Qed.

Section CopyWithin.
Context {A : Type}.
Implicit Types buffer : list A.

(** A copy that needs no clamping: what each index reads afterwards. *)
Lemma copyWithin_lookup buffer (to from count : Z) (j : nat) :
  0 ≤ to → 0 ≤ from → 0 ≤ count →
  to + count ≤ Z.of_nat (length buffer) →
  from + count ≤ Z.of_nat (length buffer) →
  length (copyWithin buffer to from (from + count)) = length buffer ∧
  copyWithin buffer to from (from + count) !! j
  = if decide (to ≤ Z.of_nat j < to + count)
    then buffer !! Z.to_nat (Z.of_nat j - to + from)
    else buffer !! j.
Proof.
  intros Hto Hfrom Hcount Hfit Hsrc. unfold copyWithin.
  set (len := Z.of_nat (length buffer)).
  assert ((to <? 0) = false) as -> by lia.
  assert ((from <? 0) = false) as -> by lia.
  assert ((from + count <? 0) = false) as -> by lia.
  rewrite !Z.min_l by lia.
  replace (from + count - from) with count by lia.
  destruct (0 <? count) eqn:Hpos.
  - split.
    + rewrite !length_app, !length_take, !length_drop. lia.
    + case_decide as Hj.
      * rewrite lookup_app_r by (rewrite length_take; lia).
        rewrite lookup_app_l by (rewrite !length_take, !length_drop; lia).
        rewrite lookup_take_lt by (rewrite length_take; lia).
        rewrite lookup_drop. f_equal. rewrite length_take. lia.
      * destruct (decide (Z.of_nat j < to)) as [Hlt|Hge].
        -- rewrite lookup_app_l by (rewrite length_take; lia).
           apply lookup_take_lt. lia.
        -- rewrite lookup_app_r by (rewrite length_take; lia).
           rewrite lookup_app_r by (rewrite !length_take, !length_drop; lia).
           rewrite lookup_drop. f_equal.
           rewrite !length_take, !length_drop. lia.
  - split; [done|]. rewrite decide_False by lia. done.
Qed.

Lemma length_copyWithin buffer (target start end_ : Z) :
  length (copyWithin buffer target start end_) = length buffer.
Proof.
  unfold copyWithin.
  assert (∀ i, 0 ≤ (if i <? 0 then Z.max (Z.of_nat (length buffer) + i) 0
                    else Z.min i (Z.of_nat (length buffer)))
               ≤ Z.of_nat (length buffer)) as Hrel.
  { intros i. destruct (i <? 0) eqn:Hi; lia. }
  pose proof (Hrel target) as Hto. pose proof (Hrel start) as Hfrom.
  pose proof (Hrel end_) as Hfinal. clear Hrel.
  revert Hto Hfrom Hfinal.
  generalize (if target <? 0 then Z.max (Z.of_nat (length buffer) + target) 0
              else Z.min target (Z.of_nat (length buffer))) as to.
  generalize (if start <? 0 then Z.max (Z.of_nat (length buffer) + start) 0
              else Z.min start (Z.of_nat (length buffer))) as from.
  generalize (if end_ <? 0 then Z.max (Z.of_nat (length buffer) + end_) 0
              else Z.min end_ (Z.of_nat (length buffer))) as final.
  intros final from to Hto Hfrom Hfinal.
  destruct (0 <? _) eqn:Hcount; [|done].
  rewrite !length_app, !length_take, !length_drop. lia.
Qed.

Lemma length_doubling n start buffer len :
  length (doubling n start buffer len).1 = length buffer.
Proof.
  revert buffer len. induction n as [|n IH]; intros buffer len; [done|].
  cbn [doubling]. by rewrite IH, length_copyWithin.
Qed.

(** Whatever its arguments, [repeatedFill] returns a buffer of the length
    it was given: a copy that does not fit is cut short, never written past
    the end. *)
Lemma repeatedFill_keeps_length (largestPowerOfTwoLessThanN : Z → Z)
    buffer (start startLength desiredCount : Z) :
  length (repeatedFill largestPowerOfTwoLessThanN buffer start startLength desiredCount)
  = length buffer.
Proof.
  unfold repeatedFill.
  pose proof (length_doubling (Z.to_nat (largestPowerOfTwoLessThanN desiredCount))
                start buffer startLength) as Hl.
  destruct (doubling _ _ _ _) as [buffer' len]. cbn [fst] in Hl.
  by rewrite length_copyWithin.
Qed.

Lemma filled_refl buffer start startLength :
  0 < startLength → filled buffer buffer start startLength startLength.
Proof.
  intros Hsl. split; [done|]. split; [|done].
  intros i Hi. by rewrite Z.mod_small by lia.
Qed.

(** Copying the head of a filled part right behind it extends the part. *)
Lemma filled_copy original buffer start startLength len count m :
  0 ≤ start → 0 < startLength → 0 < m → len = startLength * m →
  0 ≤ count ≤ len →
  start + len + count ≤ Z.of_nat (length original) →
  filled original buffer start startLength len →
  filled original (copyWithin buffer (start + len) start (start + count))
    start startLength (len + count).
Proof.
  intros Hstart Hsl Hm Hlen Hcount Hfit (Hlength & Hin & Hout).
  destruct (copyWithin_lookup buffer (start + len) start count 0)
    as [Hl _]; try lia.
  split; [by rewrite Hl|]. split.
  - intros i Hi.
    destruct (copyWithin_lookup buffer (start + len) start count
                (Z.to_nat (start + i))) as [_ ->]; try lia.
    case_decide as Hj.
    + replace (Z.to_nat (Z.of_nat (Z.to_nat (start + i)) - (start + len) + start))
        with (Z.to_nat (start + (i - len))) by lia.
      rewrite Hin by lia. do 2 f_equal.
      replace (i - len) with (i + (- m) * startLength) by lia.
      by rewrite Z_mod_plus_full.
    + apply Hin. lia.
  - intros j Hj.
    destruct (copyWithin_lookup buffer (start + len) start count j)
      as [_ ->]; try lia.
    rewrite decide_False by lia. apply Hout. lia.
Qed.

Lemma doubling_filled original start startLength n :
  0 ≤ start → 0 < startLength →
  ∀ buffer len m,
    0 < m → len = startLength * m →
    start + len * 2 ^ Z.of_nat n ≤ Z.of_nat (length original) →
    filled original buffer start startLength len →
    (doubling n start buffer len).2 = len * 2 ^ Z.of_nat n ∧
    filled original (doubling n start buffer len).1 start startLength
      (len * 2 ^ Z.of_nat n).
Proof.
  intros Hstart Hsl. induction n as [|n IH]; intros buffer len m Hm Hlen Hfit Hfilled.
  - cbn. rewrite Z.mul_1_r. done.
  - rewrite Nat2Z.inj_succ, Z.pow_succ_r in * by lia. cbn [doubling].
    assert (0 < 2 ^ Z.of_nat n) by (apply Z.pow_pos_nonneg; lia).
    destruct (IH (copyWithin buffer (start + len) start (start + len)) (len * 2) (m * 2))
      as [Hl Hf]; try nia.
    + replace (len * 2) with (len + len) by lia.
      apply (filled_copy _ _ _ _ _ _ m); try done; nia.
    + rewrite Hl. split; [lia|].
      replace (len * (2 * 2 ^ Z.of_nat n)) with (len * 2 * 2 ^ Z.of_nat n) by lia.
      done.
Qed.

(** X16: [repeatedFill] fills the part of the buffer that starts at
    [start] and is [desiredCount * startLength] long with repetitions of
    its first [startLength] elements, keeps the length of the buffer and
    leaves the rest of it as it was, provided the part lies within the
    buffer and the number of doublings [pow] is such that
    [2 ^ pow <= desiredCount <= 2 ^ (pow + 1)]. *)
Theorem repeatedFill_fills (largestPowerOfTwoLessThanN : Z → Z)
    buffer (start startLength desiredCount : Z) :
  0 ≤ start → 0 < startLength →
  0 ≤ largestPowerOfTwoLessThanN desiredCount →
  2 ^ largestPowerOfTwoLessThanN desiredCount ≤ desiredCount
    ≤ 2 ^ (largestPowerOfTwoLessThanN desiredCount + 1) →
  start + desiredCount * startLength ≤ Z.of_nat (length buffer) →
  filled buffer
    (repeatedFill largestPowerOfTwoLessThanN buffer start startLength desiredCount)
    start startLength (desiredCount * startLength).
Proof.
  intros Hstart Hsl Hpow Hcount Hfit. unfold repeatedFill.
  set (pow := largestPowerOfTwoLessThanN desiredCount) in *.
  replace (pow + 1) with (Z.succ pow) in Hcount by lia.
  rewrite Z.pow_succ_r in Hcount by done.
  assert (0 < 2 ^ pow) by (apply Z.pow_pos_nonneg; lia).
  destruct (doubling_filled buffer start startLength (Z.to_nat pow) Hstart Hsl
              buffer startLength 1) as [Hl Hf]; try lia.
  { rewrite Z2Nat.id by done. nia. }
  { by apply filled_refl. }
  rewrite Z2Nat.id in Hl, Hf by done.
  destruct (doubling (Z.to_nat pow) start buffer startLength) as [buffer' len].
  cbn [fst snd] in *. subst len.
  replace (start + desiredCount * startLength - startLength * 2 ^ pow)
    with (start + (desiredCount * startLength - startLength * 2 ^ pow)) by lia.
  replace (desiredCount * startLength)
    with (startLength * 2 ^ pow + (desiredCount * startLength - startLength * 2 ^ pow))
    at 2 by lia.
  apply (filled_copy _ _ _ _ _ _ (2 ^ pow)); try done; nia.
Qed.

End CopyWithin.
End AppUtilFacts.

(** ** The MagicaVoxel importer *)

Module VoxImporterFacts.
Import VoxImporter.

Section Load.
Context {RGBA_255 RGBA : Type}.
Variable fromRGBA255 : option RGBA_255 → RGBA.
Variable voxObject : VoxObject RGBA_255.

(** X17: [load] adds one voxel per entry of the file, in order, with the Y
    and Z axes swapped; an entry inside the size box of the file lands in
    the box centred on the origin, from [-floor(s/2)] to [floor((s-1)/2)]
    on each axis; and two entries land on the same position only if they
    have the same coordinates. *)
Theorem load_centres_and_swaps :
  length (load fromRGBA255 voxObject) = length (xyzi voxObject) ∧
  (∀ n voxel, xyzi voxObject !! n = Some voxel →
     ∃ p c, load fromRGBA255 voxObject !! n = Some (p, c) ∧
       (0 ≤ vx voxel < Vector3.x (size voxObject) →
        - (Vector3.x (size voxObject) / 2) ≤ Vector3.x p
          ≤ (Vector3.x (size voxObject) - 1) / 2) ∧
       (0 ≤ vz voxel < Vector3.z (size voxObject) →
        - (Vector3.z (size voxObject) / 2) ≤ Vector3.y p
          ≤ (Vector3.z (size voxObject) - 1) / 2) ∧
       (0 ≤ vy voxel < Vector3.y (size voxObject) →
        - (Vector3.y (size voxObject) / 2) ≤ Vector3.z p
          ≤ (Vector3.y (size voxObject) - 1) / 2)) ∧
  (∀ n1 n2 v1 v2 p c1 c2,
     xyzi voxObject !! n1 = Some v1 → xyzi voxObject !! n2 = Some v2 →
     load fromRGBA255 voxObject !! n1 = Some (p, c1) →
     load fromRGBA255 voxObject !! n2 = Some (p, c2) →
     vx v1 = vx v2 ∧ vy v1 = vy v2 ∧ vz v1 = vz v2).
Proof.
  unfold load. split; [by rewrite length_fmap|]. split.
  - intros n voxel Hn. rewrite list_lookup_fmap, Hn. cbn.
    eexists _, _. split; [reflexivity|]. cbn.
    assert (∀ s v, 0 ≤ v < s → - (s / 2) ≤ v - s / 2 ≤ (s - 1) / 2) as Hbox.
    { intros s v Hv.
      pose proof (Z.div_mod s 2 ltac:(lia)).
      pose proof (Z.mod_pos_bound s 2 ltac:(lia)).
      pose proof (Z.div_mod (s - 1) 2 ltac:(lia)).
      pose proof (Z.mod_pos_bound (s - 1) 2 ltac:(lia)). lia. }
    auto.
  - intros n1 n2 v1 v2 p c1 c2 H1 H2. rewrite !list_lookup_fmap, H1, H2. cbn.
    unfold voxelPosition. intros Ha Hb. simplify_eq. lia.
Qed.

End Load.
End VoxImporterFacts.

(** ** The further properties on the small instances *)

Module MoreExamples.
Import Lighting LightingFacts LightingConvergence Scenario.

#[local] Existing Instance types.
#[local] Existing Instance collaborators.

Lemma lighting_field_covers_expanded_bounds_witness :
  ∃ L, calculateLighting sandMesh = Some L ∧
       is_Some (L !! (1, 1, 1)) ∧ ¬ is_Some (L !! (2, 0, 0)).
Proof.
  destruct (calculateLighting_total sandMesh) as (st & HL & _ & _).
  exists (lighting st). split; [exact HL|].
  destruct (lighting_field_covers_expanded_bounds sandMesh _ HL) as [_ Hkeys].
  split.
  - apply Hkeys. unfold tracked. simpl. lia.
  - intros Hin. apply Hkeys in Hin. unfold tracked in Hin. simpl in Hin. lia.
Defined.

Lemma lighting_never_decreases_witness :
  ∃ L v, calculateLighting sandMesh = Some L ∧ L !! (1, 1, 1) = Some v ∧ 15 ≤ v.
Proof.
  destruct (calculateLighting_total sandMesh) as (st & HL & _ & _).
  assert (reachable sandMesh afterFirstStep) as Hr.
  { apply (reachable_step sandMesh (initialState sandMesh)); [constructor|].
    vm_compute. reflexivity. }
  destruct (lighting_never_decreases sandMesh (lighting st) afterFirstStep
              (1, 1, 1) 15 HL Hr (lookup_insert_eq _ _ _)) as (v & Hv & Hle).
  exists (lighting st), v. split; [exact HL|]. split; [exact Hv|exact Hle].
Defined.

Lemma lighting_neighbours_differ_by_at_most_one_witness :
  ∃ L, calculateLighting sandMesh = Some L ∧
       L !! (0, 1, 0) = Some 15 ∧ L !! (1, 1, 0) = Some 15 ∧ Z.abs (15 - 15) ≤ 1.
Proof.
  destruct (calculateLighting_total sandMesh) as (st & HL & _ & _).
  exists (lighting st). split; [exact HL|].
  assert (lighting st !! Vector3.stringify (Vector3.mk 0 1 0) = Some 15) as Hp.
  { apply (top_layer_lit sandMesh _ _ HL);
      [unfold tracked; simpl; lia|reflexivity|reflexivity]. }
  assert (lighting st !! Vector3.stringify (Vector3.mk 1 1 0) = Some 15) as Hq.
  { apply (top_layer_lit sandMesh _ _ HL);
      [unfold tracked; simpl; lia|reflexivity|reflexivity]. }
  split; [exact Hp|]. split; [exact Hq|].
  assert (adjacent (Vector3.mk 0 1 0) (Vector3.mk 1 1 0)) as Hadj.
  { exists (Vector3.mk 1 0 0). split; [|reflexivity].
    apply elem_of_directions. left. reflexivity. }
  exact (proj1 (lighting_neighbours_differ_by_at_most_one sandMesh (lighting st)
                  (Vector3.mk 0 1 0) (Vector3.mk 1 1 0) 15 15 HL Hadj Hp Hq
                  eq_refl eq_refl)).
Defined.

Lemma full_light_iff_open_column_witness :
  ∃ L, calculateLighting sandMesh = Some L ∧ L !! (1, 0, 0) = Some 15.
Proof.
  destruct (calculateLighting_total sandMesh) as (st & HL & _ & _).
  exists (lighting st). split; [exact HL|].
  apply (full_light_iff_open_column sandMesh (lighting st) (Vector3.mk 1 0 0) HL).
  - unfold tracked. simpl. lia.
  - intros y _. reflexivity.
Defined.

Lemma light_has_a_source_witness :
  ∃ L, calculateLighting sandMesh = Some L ∧
       L !! (0, -1, 0) = Some 14 ∧
       ∃ q, adjacent (Vector3.mk 0 (-1) 0) q ∧ L !! Vector3.stringify q = Some 15.
Proof.
  destruct (calculateLighting_total sandMesh) as (st & HL & _ & _).
  exists (lighting st). split; [exact HL|].
  assert ((fun L => L !! (0, -1, 0)) <$> calculateLighting sandMesh = Some (Some 14))
    as Hbelow by (vm_compute; reflexivity).
  rewrite HL in Hbelow. injection Hbelow as Hbelow.
  split; [exact Hbelow|].
  destruct (light_has_a_source sandMesh (lighting st) (Vector3.mk 0 (-1) 0) 14 HL
              Hbelow ltac:(lia)) as [[H15 _]|[_ Hq]]; [lia|exact Hq].
Defined.

Lemma createFromVoxelMesh_result_witness :
  ∃ m w',
    createFromVoxelMesh sandMesh fallable_blocks (params do_nothing) world0
    = Ok (m, w') ∧
    getVoxelMesh m = sandMesh ∧ getAllChunkedBuffers m = ∅ ∧
    calculateLighting sandMesh = Some (_lighting m).
Proof.
  destruct (createFromVoxelMesh_Ok sandMesh fallable_blocks (params do_nothing)
              world0 atlas0 palette0) as (this' & w' & L & _ & _ & Hok);
    [reflexivity|reflexivity|].
  eexists _, _. split; [exact Hok|].
  destruct (createFromVoxelMesh_result _ _ _ _ _ _ Hok)
    as (Hvm & _ & _ & _ & Hcache & Hlight).
  split; [exact Hvm|]. split; [exact Hcache|exact Hlight].
Defined.

Lemma getBlockLighting_faces_witness :
  ∃ m w' l,
    createFromVoxelMesh sandMesh fallable_blocks (params do_nothing) world0
    = Ok (m, w') ∧
    getBlockLighting m origin !! 2%nat = Some l ∧ 0 ≤ l ≤ 15.
Proof.
  destruct (createFromVoxelMesh_Ok sandMesh fallable_blocks (params do_nothing)
              world0 atlas0 palette0) as (this' & w' & L & _ & _ & Hok);
    [reflexivity|reflexivity|].
  destruct (getBlockLighting_faces _ _ _ _ _ _ origin Hok) as [_ Hfaces].
  destruct (Hfaces 2%nat (Vector3.mk 0 1 0) eq_refl) as (l & Hl & Hbound & _).
  eexists _, _, l. split; [exact Hok|]. split; [exact Hl|exact Hbound].
Defined.

Lemma assignBlocks_calls_and_messages_witness :
  ∃ this' w' forStone forSand messages,
    _assignBlocks (new_BlockMesh supportedSandMesh fallable_blocks)
      (params replace_fallable) world0 = Ok (this', w') ∧
    trace w' = trace world0 ++ concat [forStone; forSand] ++ messages ∧
    (forStone = [EvAssignBlock ap "stone" (Vector3.mk 0 (-1) 0) 1 DemoLAB all]
     ∨ forStone = [EvAssignBlock ap "stone" (Vector3.mk 0 (-1) 0) 1 DemoLAB all;
                   EvAssignBlock ap "stone" (Vector3.mk 0 (-1) 0) 1 DemoRGB nonF]) ∧
    (forSand = [EvAssignBlock ap "sand" origin 1 DemoLAB all]
     ∨ forSand = [EvAssignBlock ap "sand" origin 1 DemoLAB all;
                  EvAssignBlock ap "sand" origin 1 DemoRGB nonF]) ∧
    generated (trace w') = generated (trace world0).
Proof.
  destruct (assignBlocks_calls_and_messages supportedSandMesh fallable_blocks
              (params replace_fallable) atlas0 palette0 world0)
    as (this' & w' & perVoxel & messages & Hok & Ht & Hall & _ & Hgen);
    [reflexivity|reflexivity|].
  change (getVoxels supportedSandMesh) with [stoneBelow; sand] in Hall.
  apply Forall2_cons_inv_l in Hall as (forStone & rest & HforStone & Hall & ->).
  apply Forall2_cons_inv_l in Hall as (forSand & rest' & HforSand & Hall & ->).
  apply Forall2_nil_inv_l in Hall as ->.
  exists this', w', forStone, forSand, messages.
  split; [exact Hok|]. split; [exact Ht|].
  split; [exact HforStone|]. split; [exact HforSand|exact Hgen].
Defined.

(** One unsupported sand-coloured voxel under 'place-string' stays sand,
    and nothing is reported. *)
Lemma place_string_never_replaces_never_warns_witness :
  ∃ this' w',
    _assignBlocks (new_BlockMesh sandMesh fallable_blocks)
      (params place_string) world0 = Ok (this', w') ∧
    getBlocks this' = [mkBlock sand "sand"] ∧
    trace w' = [EvAssignBlock ap "sand" origin 1 DemoLAB all].
Proof.
  destruct (place_string_never_replaces_never_warns sandMesh fallable_blocks
              (params place_string) atlas0 palette0 world0)
    as (this' & w' & Hok & Hcand & Htrace); [reflexivity|reflexivity|reflexivity|].
  exists this', w'. split; [exact Hok|].
  split; [|exact Htrace].
  apply (f_equal fst) in Hcand. exact Hcand.
Defined.

(** Scenario A: one unsupported sand-coloured voxel under 'replace-falling'
    does not stay a falling block. *)
Lemma replace_falling_leaves_no_falling_block_witness :
  ∃ this' w',
    _assignBlocks (new_BlockMesh sandMesh fallable_blocks)
      (params replace_falling) world0 = Ok (this', w') ∧
    ∀ b, b ∈ getBlocks this' → ¬ falling fallable_blocks sandMesh b.
Proof.
  apply (replace_falling_leaves_no_falling_block sandMesh fallable_blocks
           (params replace_falling) atlas0 palette0 world0);
    [reflexivity|reflexivity|reflexivity|].
  intros o c p r cs coll. apply ScenarioExamples.nearest_in_collection.
Defined.

Lemma assigned_blocks_come_from_the_palette_witness :
  ∃ this' w',
    _assignBlocks (new_BlockMesh supportedSandMesh fallable_blocks)
      (params replace_fallable) world0 = Ok (this', w') ∧
    ∀ b, b ∈ getBlocks this' → blockInfo b ∈ ["sand"; "stone"].
Proof.
  destruct (assigned_blocks_come_from_the_palette supportedSandMesh fallable_blocks
              (params replace_fallable) atlas0 palette0 world0)
    as (this' & w' & Hok & Hfrom & _); [reflexivity|reflexivity| |].
  - intros o c p r cs coll. apply ScenarioExamples.nearest_in_collection.
  - exists this', w'. split; [exact Hok|exact Hfrom].
Defined.

Lemma getChunkedBuffer_twice_witness :
  ∃ r this' w',
    getChunkedBuffer (new_BlockMesh sandMesh fallable_blocks) 2 world0 = (r, this', w') ∧
    getChunkedBuffer this' 2 w' = (r, this', w').
Proof.
  destruct (getChunkedBuffer (new_BlockMesh sandMesh fallable_blocks) 2 world0)
    as [[r this'] w'] eqn:Hone.
  exists r, this', w'. split; [reflexivity|].
  exact (getChunkedBuffer_twice _ _ _ _ _ _ Hone).
Defined.

Lemma getChunkedBuffers_cache_and_frame_witness :
  ∃ rs this' w',
    getChunkedBuffers [2; 0; 2] (new_BlockMesh sandMesh fallable_blocks) world0
    = (rs, this', w') ∧
    is_Some (getAllChunkedBuffers this' !! 0) ∧
    ¬ is_Some (getAllChunkedBuffers this' !! 1) ∧
    _blocks this' = [].
Proof.
  destruct (getChunkedBuffers [2; 0; 2] (new_BlockMesh sandMesh fallable_blocks) world0)
    as [[rs this'] w'] eqn:Hrun.
  exists rs, this', w'. split; [reflexivity|].
  destruct (getChunkedBuffers_cache_and_frame _ _ _ _ _ _ Hrun)
    as (Hdom & _ & Hblocks & _).
  split; [|split; [|exact Hblocks]].
  - apply Hdom. right. apply elem_of_cons. right. apply elem_of_cons. by left.
  - intros Hin. apply Hdom in Hin as [[c Hc]|Hin].
    + cbn in Hc. rewrite lookup_empty in Hc. discriminate Hc.
    + apply elem_of_cons in Hin as [Hin|Hin]; [discriminate Hin|].
      apply elem_of_cons in Hin as [Hin|Hin]; [discriminate Hin|].
      apply elem_of_cons in Hin as [Hin|Hin]; [discriminate Hin|].
      by apply elem_of_nil in Hin.
Defined.

Lemma namespaceBlock_idempotent_witness :
  AppUtil.namespaceBlock "stone" = "minecraft:stone" ∧
  AppUtil.namespaceBlock "minecraft:stone" = "minecraft:stone" ∧
  AppUtil.namespaceBlock (AppUtil.namespaceBlock "stone") = AppUtil.namespaceBlock "stone".
Proof.
  destruct (AppUtilFacts.namespaceBlock_idempotent "stone") as (_ & _ & Hidem).
  destruct (AppUtilFacts.namespaceBlock_idempotent "minecraft:stone") as (_ & Hkeep & _).
  split; [reflexivity|]. split; [apply Hkeep; reflexivity|exact Hidem].
Defined.

Lemma repeatedFill_fills_witness :
  filled UtilScenario.pattern
    (AppUtil.repeatedFill Z.log2 UtilScenario.pattern 0 2 5) 0 2 (5 * 2) ∧
  AppUtil.repeatedFill Z.log2 UtilScenario.pattern 0 2 5
  = [1; 2; 1; 2; 1; 2; 1; 2; 1; 2].
Proof.
  split; [|reflexivity].
  apply (AppUtilFacts.repeatedFill_fills Z.log2 UtilScenario.pattern 0 2 5).
  - lia.
  - lia.
  - vm_compute. discriminate.
  - vm_compute. split; discriminate.
  - vm_compute. discriminate.
Defined.

Lemma load_centres_and_swaps_witness :
  VoxImporter.load UtilScenario.colourName UtilScenario.voxFile
  = [(Vector3.mk 1 2 1, "white")] ∧
  ∃ p c, VoxImporter.load UtilScenario.colourName UtilScenario.voxFile !! 0%nat
         = Some (p, c) ∧ - (3 / 2) ≤ Vector3.x p ≤ (3 - 1) / 2.
Proof.
  split; [reflexivity|].
  destruct (VoxImporterFacts.load_centres_and_swaps UtilScenario.colourName
              UtilScenario.voxFile) as (_ & Hbox & _).
  destruct (Hbox 0%nat (VoxImporter.mkVoxVoxel 2 3 4 1) eq_refl)
    as (p & c & Hp & Hx & _).
  exists p, c. split; [exact Hp|]. apply Hx. simpl. lia.
Defined.

End MoreExamples.
